(** * streamlabs-obs: HTTP request helpers and the platform-app asset cache

    A shallow embedding of

    - [src/app/util/requests.ts]: [requiresToken], [downloadFile],
      [concatUint8Arrays], [getChecksum];
    - the platform-app assets service ([PlatformAppAssetsService]):
      [getAsset], [hasAsset], [ADD_ASSET], [getApp], [ensureAssets],
      [getAssetsTargetDirectory], [addPlatformAppAsset];
    - the rest of [src/app/util/requests.ts]: [handleResponse],
      [authorizedHeaders], [isUrl];
    - the Twitch platform service ([TwitchService]): [getRawHeaders],
      [getHeaders], [fetchNewToken], [fetchRawChannelInfo],
      [fetchStreamKey];
    - the developer settings page ([AppPlatformDeveloperSettings]):
      [currentlyLoadedUnpackedApp], [loadApp], [reloadApp], [unloadApp].

    Promises are modelled by their eventual outcome (fulfilled, rejected,
    or never settled) together with the effects that running them has on
    an explicit world.  A JavaScript object used as a dictionary is a
    finite map of the entries it stores, together with what the object
    answers besides (the members it inherits), which belongs to the
    runtime and is a parameter of the model; a call that can throw
    returns a sum. *)

From Stdlib Require Import Ascii.
From stdpp Require Import gmap strings list.

(** ** Values crossing the promise boundary *)

(** A [Uint8Array]. *)
Abbreviation bytes := (list Byte.byte).

(** What successive [reader.read()] calls on a response body will yield:
    a chunk ([{done: false, value}]) followed by the rest of the body, the
    end-of-stream signal ([{done: true}]), a faulted read (the promise
    returned by [read()] rejects), or a read that never completes. *)
Inductive Stream : Type :=
| SChunk (value : bytes) (rest : Stream)
| SDone
| SError (message : string)
| SStall.

(** The fields of a fetch [Response] that the code looks at. *)
Record Response : Type := mkResponse {
  status : Z;
  body : Stream;
}.

(** [Response.ok] of the Fetch API: the status is in the range 200-299. *)
Definition ok (resp : Response) : bool :=
  bool_decide (200 ≤ status resp)%Z && bool_decide (status resp ≤ 299)%Z.

(** Rejection reasons: any JavaScript value can be one.  The code only
    ever reads the [status] property of a reason. *)
Inductive Reason : Type :=
| RUndefined
| RResponse (resp : Response)
| RObject (status_field : option Z) (payload : string)
| RError (message : string).

(** [error.status]; [None] on the outside is the [TypeError] of reading a
    property of [undefined], [Some None] is the value [undefined]. *)
Definition reason_status (error : Reason) : option (option Z) :=
  match error with
  | RUndefined => None
  | RResponse resp => Some (Some (status resp))
  | RObject st _ => Some st
  | RError _ => Some None
  end.

(** ** Promises *)

Inductive Outcome (A : Type) : Type :=
| Fulfilled (a : A)
| Rejected (r : Reason)
| Pending.
Arguments Fulfilled {A} a.
Arguments Rejected {A} r.
Arguments Pending {A}.

Definition is_fulfilled {A} (o : Outcome A) : bool :=
  match o with Fulfilled _ => true | _ => false end.

(** An asynchronous computation over a world [W]: the outcome its promise
    eventually has, and the world once everything it started has run. *)
Definition Async (W A : Type) : Type := W → Outcome A * W.

Module Promise.
Section Combinators.
Context {W : Type}.

(** [Promise.resolve(a)], or [return a] in an [async] function. *)
Definition resolve {A} (a : A) : Async W A := λ w, (Fulfilled a, w).

(** [Promise.reject(r)], or [throw r] inside a handler. *)
Definition reject {A} (r : Reason) : Async W A := λ w, (Rejected r, w).

(** A promise that nothing ever settles. *)
Definition never {A} : Async W A := λ w, (Pending, w).

(** [p.then(f)], and [await p] followed by the rest of the function:
    [f] runs only once [p] is fulfilled; a rejection passes through, and
    a promise that never settles never runs its handlers. *)
Definition then_ {A B} (p : Async W A) (f : A → Async W B) : Async W B :=
  λ w, match p w with
       | (Fulfilled a, w') => f a w'
       | (Rejected r, w') => (Rejected r, w')
       | (Pending, w') => (Pending, w')
       end.

(** [p.catch(h)]. *)
Definition catch {A} (p : Async W A) (h : Reason → Async W A) : Async W A :=
  λ w, match p w with
       | (Fulfilled a, w') => (Fulfilled a, w')
       | (Rejected r, w') => h r w'
       | (Pending, w') => (Pending, w')
       end.

(** A promise that is started but whose result nobody looks at (a call
    [p.then(f)] in statement position): its effects happen, the caller
    carries on with [undefined]. *)
Definition detached {A} (p : Async W A) : Async W unit :=
  λ w, (Fulfilled tt, (p w).2).

(** A synchronous effect on the world. *)
Definition effect (f : W → W) : Async W unit := λ w, (Fulfilled tt, f w).
End Combinators.
End Promise.

(** A call of a method that is not [async]: it can throw before it
    returns its promise. *)
Definition Method (W A : Type) : Type := W → Reason + (Outcome A * W).

(** Such a call made inside a [then] or [catch] handler: a throw is a
    rejection of the promise the handler returns. *)
Definition in_handler {W A} (call : Method W A) : Async W A :=
  λ w, match call w with
       | inr result => result
       | inl thrown => (Rejected thrown, w)
       end.

Notation "'await' x <- p ;; k" := (Promise.then_ p (λ x, k))
  (at level 100, x binder, p at next level, k at level 200, right associativity,
   format "'[v' 'await'  x  <-  p  ;; '/' k ']'").

(** ** The asset cache store *)

(** What [getAsset] can return: [null], [undefined] (a missing property),
    a string, or any other value of the runtime (a function, an object, a
    number), of which the code tests the truthiness only. *)
Inductive Lookup : Type :=
| JNull
| JUndefined
| JString (s : string)
| JOther (truthy : bool).

(** JavaScript truthiness, [!!x]. *)
Definition truthy (x : Lookup) : bool :=
  match x with
  | JNull | JUndefined => false
  | JString s => negb (bool_decide (s = EmptyString))
  | JOther b => b
  end.

(** A lookup is present when it is neither [null] nor [undefined]. *)
Definition present (x : Lookup) : Prop :=
  match x with JNull | JUndefined => False | _ => True end.

Definition checksum_of (x : Lookup) : option string :=
  match x with JString s => Some s | _ => None end.

(** [AssetsMap]: asset filename -> checksum. *)
Abbreviation AssetsMap := (gmap string string).
(** [AssetsServiceState]: app id -> [AssetsMap]. *)
Abbreviation AssetsServiceState := (gmap string (gmap string string)).

(** The JavaScript objects around the table.  The state and its submaps
    are plain objects: besides the entries it stores, an object answers a
    read with what it has otherwise (the members of [Object.prototype],
    the observer of an observed object), and a write through such a key
    reaches that other value.  What those values are and how they behave
    belongs to the runtime and to Vue, not to this repository. *)
Record Runtime : Type := mkRuntime {
  (** The state of the objects that the table's reads can reach. *)
  Heap : Type;
  (** A value found under a key that an object does not store. *)
  Foreign : Type;
  (** [o[key]] for a key that is not among the stored entries of [o]; the
      holder [None] is the state object, [Some appId] the submap of
      [appId]. *)
  unstored : Heap → option string → string → option Foreign;
  (** Such a value as a caller of [getAsset] sees it. *)
  seen_as : Foreign → Lookup;
  (** [f[key]]; it can throw. *)
  foreign_get : Heap → Foreign → string → Reason + Lookup;
  (** [Vue.set(f, key, value)]; it can throw. *)
  foreign_set : Foreign → string → string → Heap → Reason + Heap;
  (** Whether [Vue.set(o, key, value)] stores the entry in [o] when [o]
      already answers [key] with something it does not store. *)
  shadows : Heap → option string → string → bool;
}.
Arguments unstored {rt} h holder key : rename.
Arguments seen_as {rt} f : rename.
Arguments foreign_get {rt} h f key : rename.
Arguments foreign_set {rt} f key value h : rename.
Arguments shadows {rt} h holder key : rename.

(** The table: the entries the state and its submaps store, which is what
    is persisted, and the objects around them. *)
Record Table (rt : Runtime) : Type := mkTable {
  stored : AssetsServiceState;
  heap : Heap rt;
}.
Arguments mkTable {rt} stored heap.
Arguments stored {rt} t.
Arguments heap {rt} t.

Module Assets.

Definition defaultState : AssetsServiceState := ∅.

Section Store.
Context {rt : Runtime}.

(** What [this.state[appId]] evaluates to. *)
Inductive StateValue : Type :=
| Submap (appAssets : AssetsMap)
| Beyond (f : Foreign rt)
| Absent.

Definition read_state (state : Table rt) (appId : string) : StateValue :=
  match stored state !! appId with
  | Some appAssets => Submap appAssets
  | None =>
      match unstored (heap state) None appId with
      | Some f => Beyond f
      | None => Absent
      end
  end.

(** [!!this.state[appId]]; an object is always truthy. *)
Definition state_truthy (v : StateValue) : bool :=
  match v with
  | Submap _ => true
  | Beyond f => truthy (seen_as f)
  | Absent => false
  end.

(** [appAssets[assetName]] on the submap of [appId]. *)
Definition prop (h : Heap rt) (appId : string) (appAssets : AssetsMap)
    (assetName : string) : Lookup :=
  match appAssets !! assetName with
  | Some checksum => JString checksum
  | None =>
      match unstored h (Some appId) assetName with
      | Some f => seen_as f
      | None => JUndefined
      end
  end.

(** [getAsset]: [appAssets ? appAssets[assetName] : null]. *)
Definition getAsset (state : Table rt) (appId assetName : string) : Reason + Lookup :=
  match read_state state appId with
  | Submap appAssets => inr (prop (heap state) appId appAssets assetName)
  | Beyond f =>
      if truthy (seen_as f) then foreign_get (heap state) f assetName else inr JNull
  | Absent => inr JNull
  end.

(** [hasAsset]: [!!this.getAsset(appId, assetName)]. *)
Definition hasAsset (state : Table rt) (appId assetName : string) : Reason + bool :=
  match getAsset state appId assetName with
  | inr x => inr (truthy x)
  | inl thrown => inl thrown
  end.

(** [Vue.set(obj, key, value)] on the state object or on a submap. *)
Definition Vue_set {V} (h : Heap rt) (holder : option string)
    (obj : gmap string V) (key : string) (value : V) : gmap string V :=
  match unstored h holder key with
  | None => <[key := value]> obj
  | Some _ => if shadows h holder key then <[key := value]> obj else obj
  end.

(** The mutation [ADD_ASSET]; the target of the second [Vue.set] is
    whatever [this.state[appId]] is by then. *)
Definition ADD_ASSET (appId assetName checksum : string)
    (state : Table rt) : Reason + Table rt :=
  let state1 :=
    if state_truthy (read_state state appId) then state
    else {| stored := Vue_set (heap state) None (stored state) appId ∅;
            heap := heap state |} in
  match read_state state1 appId with
  | Submap appAssets =>
      inr {| stored := <[appId := Vue_set (heap state1) (Some appId) appAssets
                                    assetName checksum]> (stored state1);
             heap := heap state1 |}
  | Beyond f =>
      match foreign_set f assetName checksum (heap state1) with
      | inr h => inr {| stored := stored state1; heap := h |}
      | inl thrown => inl thrown
      end
  | Absent => inl (RError "TypeError")
  end.

(** The checksum a lookup found, if it found a string. *)
Definition found_checksum (r : Reason + Lookup) : option string :=
  match r with
  | inr x => checksum_of x
  | inl _ => None
  end.

(** A key under which neither the state object nor the submap of
    [appId] has anything besides stored entries. *)
Definition ordinary_app (state : Table rt) (appId : string) : Prop :=
  unstored (heap state) None appId = None.

Definition ordinary_asset (state : Table rt) (appId assetName : string) : Prop :=
  unstored (heap state) (Some appId) assetName = None.
End Store.

End Assets.

(** ** The world of the request helpers *)

(** Observable steps, in the order they happen. *)
Inductive Event : Type :=
| EFetch (url : string)
| EChunk (value : bytes)
| EEnd
| EWrite (path : string) (data : bytes)
| EMkdirp (dir : string)
| EHash (path : string).

(** The file system (path -> contents), and the steps taken so far. *)
Record World : Type := mkWorld {
  fs : gmap string bytes;
  trace : list Event;
}.

Definition log (e : Event) (w : World) : World :=
  {| fs := fs w; trace := trace w ++ [e] |}.

(** What [fetch(url)] does: it rejects (network failure), never answers,
    or fulfils with a response, successful or not. *)
Inductive FetchResult : Type :=
| NetFail (message : string)
| NetStall
| NetResponse (resp : Response).

(** The state of a promise under construction, [new Promise(executor)]:
    the world, and whether [resolve]/[reject] has been called yet. *)
Record Exec (A : Type) : Type := mkExec {
  world : World;
  settled : option (Outcome A);
}.
Arguments mkExec {A} world settled.
Arguments world {A} e.
Arguments settled {A} e.

Module Executor.
Section Executor.
Context {A : Type}.

(** The [resolve]/[reject] functions handed to an executor: the first
    call settles the promise, later calls are ignored. *)
Definition settle (o : Outcome A) : Async (Exec A) unit :=
  Promise.effect (λ e,
    match settled e with
    | None => {| world := world e; settled := Some o |}
    | Some _ => e
    end).

Definition resolve (a : A) : Async (Exec A) unit := settle (Fulfilled a).
Definition reject (r : Reason) : Async (Exec A) unit := settle (Rejected r).

(** A computation on the world, run inside the executor. *)
Definition lift {B} (m : Async World B) : Async (Exec A) B :=
  λ e, let '(o, w) := m (world e) in
       (o, {| world := w; settled := settled e |}).

(** [new Promise(executor)]: the executor's own return value is
    dropped; the promise has the outcome [resolve]/[reject] gave it, and
    none if neither was called. *)
Definition new_Promise {B} (executor : Async (Exec A) B) : Async World A :=
  λ w, let e := (executor {| world := w; settled := None |}).2 in
       (match settled e with
        | Some o => o
        | None => Pending
        end, world e).
End Executor.
End Executor.

Module Requests.

(** [Uint8Array.prototype.set(src, offset)]: overwrites in place, a
    [RangeError] when the source does not fit. *)
Definition u8_set (c src : bytes) (offset : nat) : option bytes :=
  if decide (offset + List.length src ≤ List.length c)
  then Some (take offset c ++ src ++ drop (offset + List.length src) c)
  else None.

(** [new Uint8Array(n)]: [n] zero bytes. *)
Definition u8_new (n : nat) : bytes := replicate n Byte.x00.

Definition concatUint8Arrays (a b : bytes) : option bytes :=
  let c := u8_new (List.length a + List.length b) in
  c ← u8_set c a 0;
  u8_set c b (List.length a).

Section Download.
(** The network and the permissions of the file system. *)
Variable net : string → FetchResult.
Variable writable : string → bool.

Definition fetch (url : string) : Async World Response :=
  λ w, match net url with
       | NetFail message => (Rejected (RError message), log (EFetch url) w)
       | NetStall => (Pending, log (EFetch url) w)
       | NetResponse resp => (Fulfilled resp, log (EFetch url) w)
       end.

(** [fs.writeFileSync(path, data)]: throws when the path cannot be
    written. *)
Definition writeFileSync (path : string) (data : bytes) : Async World unit :=
  λ w, if writable path
       then (Fulfilled tt,
             {| fs := <[path := data]> (fs w);
                trace := trace w ++ [EWrite path data] |})
       else (Rejected (RError (String.append "EACCES: " path)), w).

(** [reader.read().then(readStream)], with [result] the bytes
    accumulated so far and [remaining] what the reader will still
    deliver.  In the [else] branch of [readStream] the next
    [reader.read().then(readStream)] is started and not returned. *)
Fixpoint read_then_readStream (dstPath : string) (remaining : Stream)
    (result : bytes) : Async (Exec unit) unit :=
  match remaining with
  | SDone =>
      await _ <- Executor.lift (Promise.effect (log EEnd)) ;;
      await _ <- Executor.lift (writeFileSync dstPath result) ;;
      Executor.resolve tt
  | SChunk value rest =>
      await _ <- Executor.lift (Promise.effect (log (EChunk value))) ;;
      match concatUint8Arrays result value with
      | Some result' =>
          Promise.detached (read_then_readStream dstPath rest result')
      | None => Promise.reject (RError "RangeError")
      end
  | SError message => Promise.reject (RError message)
  | SStall => Promise.never
  end.

(** [downloadFile]: the executor never calls [reject]. *)
Definition downloadFile (srcUrl dstPath : string) : Async World unit :=
  Executor.new_Promise
    (await resp0 <- Executor.lift (fetch srcUrl) ;;
     await resp <- (if ok resp0 then Promise.resolve resp0
                    else Promise.reject (RResponse resp0)) ;;
     read_then_readStream dstPath (body resp) (u8_new 0)).
End Download.

Section Checksum.
(** [crypto.createHash('md5')] ... [digest('hex')] of a byte string,
    and which files can be opened for reading. *)
Variable md5_hex : bytes → string.
Variable readable : string → bool.

(** [getChecksum]: the file is streamed through the hash; [end]
    resolves with the digest, [error] rejects. *)
Definition getChecksum (filePath : string) : Async World string :=
  λ w, match fs w !! filePath with
       | Some data =>
           if readable filePath
           then (Fulfilled (md5_hex data), log (EHash filePath) w)
           else (Rejected (RError (String.append "EACCES: " filePath)), w)
       | None => (Rejected (RError (String.append "ENOENT: " filePath)), w)
       end.
End Checksum.

End Requests.

(** ** The token-refresh decorator *)

Module Middleware.
Section RequiresToken.
Context {W Args Val : Type}.
(** [descriptor.value], the decorated method, and [target.fetchNewToken]. *)
Variable original : Args → Async W Val.
Variable fetchNewToken : Async W unit.

(** The [value] of the descriptor that [requiresToken()] returns. *)
Definition requiresToken (args : Args) : Async W Val :=
  Promise.catch (original args) (λ error,
    match reason_status error with
    | None => Promise.reject (RError "TypeError")
    | Some st =>
        if bool_decide (st = Some 401%Z)
        then await _ <- fetchNewToken ;; original args
        else Promise.reject error
    end).
End RequiresToken.

(** Counting invocations: a world that also remembers, in order, every
    call of the wrapped method (with its arguments) and of the refresh. *)
Inductive Call (Args : Type) : Type :=
| CallOriginal (args : Args)
| CallRefresh.
Arguments CallOriginal {Args} args.
Arguments CallRefresh {Args}.

Record Probe (W Args : Type) : Type := mkProbe {
  inner : W;
  calls : list (Call Args);
}.
Arguments mkProbe {W Args} inner calls.
Arguments inner {W Args} p.
Arguments calls {W Args} p.

Section Probed.
Context {W Args Val : Type}.

Definition probed {A} (c : Call Args) (m : Async W A) : Async (Probe W Args) A :=
  λ p, let '(o, w) := m (inner p) in
       (o, {| inner := w; calls := calls p ++ [c] |}).

Definition probed_original (original : Args → Async W Val) (args : Args)
    : Async (Probe W Args) Val :=
  probed (CallOriginal args) (original args).

Definition probed_refresh (fetchNewToken : Async W unit)
    : Async (Probe W Args) unit :=
  probed CallRefresh fetchNewToken.

(** The decorated method as the caller sees it, with every call of the
    wrapped method and of the refresh counted. *)
Definition decorated (original : Args → Async W Val) (fetchNewToken : Async W unit)
    : Args → Async (Probe W Args) Val :=
  requiresToken (probed_original original) (probed_refresh fetchNewToken).
End Probed.
End Middleware.

(** ** The asset acquisition service *)

(** The one field of [ILoadedApp] the service reads ([app.id]). *)
Record ILoadedApp : Type := mkApp {
  app_id : string;
}.

(** A committed [ADD_ASSET] mutation: app id, asset name, checksum. *)
Record Commit : Type := mkCommit {
  commit_appId : string;
  commit_assetName : string;
  commit_checksum : string;
}.

(** The service: the outside world, its own [state], and the mutations
    committed to the store so far, oldest first. *)
Record Service (rt : Runtime) : Type := mkService {
  io : World;
  state : Table rt;
  commits : list Commit;
}.
Arguments mkService {rt} io state commits.
Arguments io {rt} s.
Arguments state {rt} s.
Arguments commits {rt} s.

(** The table after a sequence of [ADD_ASSET] mutations, up to the first
    one that throws. *)
Definition replay {rt : Runtime} (delta : list Commit) (st : Table rt)
    : Reason + Table rt :=
  foldl (λ acc c,
           match acc with
           | inr st => Assets.ADD_ASSET (commit_appId c) (commit_assetName c)
                         (commit_checksum c) st
           | inl thrown => inl thrown
           end) (inr st) delta.

(** The checksum of the last mutation of a sequence that addresses
    [(appId, assetName)], if there is one. *)
Definition last_recorded (delta : list Commit) (appId assetName : string) : option string :=
  commit_checksum <$>
    last (filter (λ c, commit_appId c = appId ∧ commit_assetName c = assetName) delta).

Module Orchestrator.
Section Orchestrator.
Context {rt : Runtime}.
(** [platformAppsService.getApp] and [platformAppsService.getAssetUrl]. *)
Variable platform_getApp : string → option ILoadedApp.
Variable platform_getAssetUrl : string → string → string.
(** [electron.remote.app.getPath('userData')], [path.join],
    [path.basename], and whether [mkdirp] succeeds on a directory. *)
Variable userData : string.
Variable path_join : list string → string.
Variable path_basename : string → string.
Variable can_mkdir : string → bool.
(** [import { downloadFile, getChecksum } from 'util/requests']: they
    act on the world and have no access to the service's state. *)
Variable downloadFile : string → string → Async World unit.
Variable getChecksum : string → Async World string.

Definition on_io {A} (m : Async World A) : Async (Service rt) A :=
  λ s, let '(o, w) := m (io s) in
       (o, {| io := w; state := state s; commits := commits s |}).

(** [this.ADD_ASSET(...)], the committed mutation; inside the [async]
    method a throw of the mutation is a rejection. *)
Definition commit_ADD_ASSET (appId assetName checksum : string)
    : Async (Service rt) unit :=
  λ s, match Assets.ADD_ASSET appId assetName checksum (state s) with
       | inr state' =>
           (Fulfilled tt,
            {| io := io s; state := state';
               commits := commits s ++ [mkCommit appId assetName checksum] |})
       | inl thrown => (Rejected thrown, s)
       end.

Definition mkdirp (dir : string) : Async World unit :=
  λ w, if can_mkdir dir
       then (Fulfilled tt, log (EMkdirp dir) w)
       else (Rejected (RError (String.append "EACCES: " dir)), w).

Definition ensureAssets (app : ILoadedApp) : Async World string :=
  let appAssetsDir := path_join [userData; "Media"; "Apps"; app_id app]%string in
  await _ <- mkdirp appAssetsDir ;;
  Promise.resolve appAssetsDir.

(** The private [getApp]: it returns the app or throws. *)
Definition getApp (appId : string) : Reason + ILoadedApp :=
  match platform_getApp appId with
  | Some app => inr app
  | None => inl (RError (String.append "Invalid app: " appId))
  end.

(** An [async] method: the throw of [getApp] becomes a rejection. *)
Definition getAssetsTargetDirectory (appId : string) : Async World string :=
  match getApp appId with
  | inr app => ensureAssets app
  | inl error => Promise.reject error
  end.

Definition addPlatformAppAsset (appId assetUrl : string) (force : bool)
    : Async (Service rt) string :=
  let originalUrl := platform_getAssetUrl appId assetUrl in
  await assetsDir <- on_io (getAssetsTargetDirectory appId) ;;
  let filePath := path_join [assetsDir; path_basename originalUrl] in
  await _ <- on_io (downloadFile originalUrl filePath) ;;
  await checksum <- on_io (getChecksum filePath) ;;
  await _ <- commit_ADD_ASSET appId assetUrl checksum ;;
  Promise.resolve filePath.

(** The steps of one invocation that act on the world: directory,
    download, checksum.  Neither the force flag nor the table takes
    part in them. *)
Definition acquire (appId assetUrl : string) : Async World (string * string) :=
  let originalUrl := platform_getAssetUrl appId assetUrl in
  await assetsDir <- getAssetsTargetDirectory appId ;;
  let filePath := path_join [assetsDir; path_basename originalUrl] in
  await _ <- downloadFile originalUrl filePath ;;
  await checksum <- getChecksum filePath ;;
  Promise.resolve (filePath, checksum).
End Orchestrator.

(** The service linked against [util/requests]. *)
Definition addPlatformAppAsset_linked {rt : Runtime}
    (platform_getApp : string → option ILoadedApp)
    (platform_getAssetUrl : string → string → string)
    (userData : string) (path_join : list string → string)
    (path_basename : string → string) (can_mkdir : string → bool)
    (net : string → FetchResult) (writable : string → bool)
    (md5_hex : bytes → string) (readable : string → bool)
    : string → string → bool → Async (Service rt) string :=
  addPlatformAppAsset platform_getApp platform_getAssetUrl userData path_join
    path_basename can_mkdir
    (Requests.downloadFile net writable) (Requests.getChecksum md5_hex readable).
End Orchestrator.

(** ** Reading a response body to its end *)

Module DownloadSpec.
(** The chunks a body delivers before it ends, faults or stalls. *)
Fixpoint chunks_of (s : Stream) : list bytes :=
  match s with
  | SChunk value rest => value :: chunks_of rest
  | _ => []
  end.

(** Whether the body reaches its end-of-stream signal. *)
Fixpoint ends_done (s : Stream) : bool :=
  match s with
  | SChunk _ rest => ends_done rest
  | SDone => true
  | _ => false
  end.

Section After.
Variable writable : string → bool.

(** Where an executor stands once [reader.read().then(readStream)]
    and everything it started has run. *)
Definition after_stream (dstPath : string) (s : Stream) (result : bytes)
    (e : Exec unit) : Exec unit :=
  let data := result ++ concat (chunks_of s) in
  let seen := trace (world e) ++ map EChunk (chunks_of s) in
  if ends_done s then
    if writable dstPath then
      {| world := {| fs := <[dstPath := data]> (fs (world e));
                     trace := seen ++ [EEnd; EWrite dstPath data] |};
         settled := match settled e with
                    | None => Some (Fulfilled tt)
                    | Some o => Some o
                    end |}
    else {| world := {| fs := fs (world e); trace := seen ++ [EEnd] |};
            settled := settled e |}
  else {| world := {| fs := fs (world e); trace := seen |};
          settled := settled e |}.

End After.
End DownloadSpec.

(** ** A runtime for the scenarios *)

(** An unobserved table on a runtime whose [Object.prototype] has its
    standard members.  Of the functions found there only [length] and
    [name] are modelled, which is all the scenarios read. *)
Module PlainObjects.

(** What a plain object finds on [Object.prototype]: the prototype itself
    (under [__proto__]), one of its functions, or a string that a
    [Vue.set] has stored there. *)
Inductive Member : Type :=
| MProto
| MFunction (name : string)
| MString (s : string).

(** The functions of [Object.prototype], each with its number of
    parameters. *)
Definition functions : list (string * Z) :=
  [("constructor", 1); ("__defineGetter__", 2); ("__defineSetter__", 2);
   ("hasOwnProperty", 1); ("__lookupGetter__", 1); ("__lookupSetter__", 1);
   ("isPrototypeOf", 1); ("propertyIsEnumerable", 1); ("toString", 0);
   ("valueOf", 0); ("toLocaleString", 0)]%string%Z.

Definition arity (name : string) : option Z :=
  snd <$> List.find (λ entry, String.eqb entry.1 name) functions.

(** The strings stored on [Object.prototype] and on its functions. *)
Record Objects : Type := mkObjects {
  on_prototype : gmap string string;
  on_function : gmap (string * string) string;
}.

Definition pristine : Objects := {| on_prototype := ∅; on_function := ∅ |}.

Definition member (h : Objects) (key : string) : option Member :=
  if String.eqb key "__proto__" then Some MProto
  else match on_prototype h !! key with
       | Some s => Some (MString s)
       | None => match arity key with Some _ => Some (MFunction key) | None => None end
       end.

Definition as_lookup (m : Member) : Lookup :=
  match m with
  | MProto | MFunction _ => JOther true
  | MString s => JString s
  end.

Definition inherited (h : Objects) (key : string) : Lookup :=
  from_option as_lookup JUndefined (member h key).

Definition read_member (h : Objects) (m : Member) (key : string) : Reason + Lookup :=
  match m with
  | MProto =>
      (* the prototype of [Object.prototype] is [null] *)
      inr (if String.eqb key "__proto__" then JNull else inherited h key)
  | MFunction f =>
      if String.eqb key "caller" || String.eqb key "arguments"
      then inl (RError "TypeError")
      else if String.eqb key "length"
      then inr (JOther (negb (bool_decide (arity f = Some 0%Z))))
      else if String.eqb key "name"
      then inr (JString (if String.eqb f "constructor" then "Object" else f))
      else match on_function h !! (f, key) with
           | Some s => inr (JString s)
           | None => inr (inherited h key)
           end
  | MString s =>
      if String.eqb key "length"
      then inr (JOther (negb (bool_decide (s = EmptyString))))
      else inr (inherited h key)
  end.

(** [Vue.set] on such a value ends in [target[key] = value]: a string
    given to [__proto__] is dropped, a property of a function that cannot
    be written and a primitive as target throw. *)
Definition write_member (m : Member) (key value : string) (h : Objects)
    : Reason + Objects :=
  match m with
  | MProto =>
      inr (if String.eqb key "__proto__" then h
           else {| on_prototype := <[key := value]> (on_prototype h);
                   on_function := on_function h |})
  | MFunction f =>
      if String.eqb key "length" || String.eqb key "name"
         || String.eqb key "caller" || String.eqb key "arguments"
      then inl (RError "TypeError")
      else inr (if String.eqb key "__proto__" then h
                else {| on_prototype := on_prototype h;
                        on_function := <[(f, key) := value]> (on_function h) |})
  | MString _ => inl (RError "TypeError")
  end.

Definition runtime : Runtime :=
  {| Heap := Objects;
     Foreign := Member;
     unstored := λ h _ key, member h key;
     seen_as := as_lookup;
     foreign_get := read_member;
     foreign_set := write_member;
     shadows := λ _ _ key, negb (String.eqb key "__proto__") |}.

(** A table with the given entries on a pristine runtime. *)
Definition table (entries : AssetsServiceState) : Table runtime :=
  @mkTable runtime entries pristine.

End PlainObjects.

(** ** Concrete scenarios *)

Module Scenario.
(** A server that answers 404 for one URL and streams two chunks for
    another. *)
Definition demo_net (url : string) : FetchResult :=
  if bool_decide (url = "https://cdn.example/ok.bin"%string)
  then NetResponse {| status := 200;
                      body := SChunk [Byte.x01; Byte.x02] (SChunk [Byte.x03] SDone) |}
  else if bool_decide (url = "https://cdn.example/gone.bin"%string)
  then NetResponse {| status := 404; body := SDone |}
  else NetFail "ENOTFOUND".

Definition demo_world : World :=
  {| fs := {[ "/assets/gone.bin"%string := [Byte.x2a] ]}; trace := [] |}.

(** An authenticated call over a world that only says whether the token
    is fresh: it answers 401 while the token is stale. *)
Definition fetchStreamKey (channel : string) : Async bool string :=
  λ fresh, if fresh
           then (Fulfilled (String.append channel ":live_key"), fresh)
           else (Rejected (RObject (Some 401%Z) "token expired"), fresh).

(** The same call against an account whose access has been revoked. *)
Definition fetchRevoked (channel : string) : Async bool string :=
  λ fresh, (Rejected (RObject (Some 401%Z) (if fresh then "revoked" else "token expired")),
            fresh).

Definition fetchNewToken : Async bool unit := λ _, (Fulfilled tt, true).

(** One installed application, assets served from one host. *)
Definition getApp (appId : string) : option ILoadedApp :=
  if bool_decide (appId = "app-1"%string) then Some {| app_id := "app-1" |} else None.

Definition getAssetUrl (appId assetUrl : string) : string :=
  String.append "https://cdn.example/" assetUrl.

Definition join (parts : list string) : string := String.concat "/" parts.

Fixpoint has_slash (s : string) : bool :=
  match s with
  | EmptyString => false
  | String c rest => bool_decide (c = "/"%char) || has_slash rest
  end.

(** What follows the last ["/"]. *)
Fixpoint basename (s : string) : string :=
  match s with
  | EmptyString => EmptyString
  | String c rest =>
      if has_slash rest then basename rest
      else if bool_decide (c = "/"%char) then rest else s
  end.

(** A stand-in for the digest, enough to tell the files of the scenario
    apart. *)
Definition md5_hex (data : bytes) : string :=
  if Nat.eqb (List.length data) 3
  then "5289df737df57326fcdd22597afb1fac"%string
  else "d41d8cd98f00b204e9800998ecf8427e"%string.

Definition addPlatformAppAsset
    : string → string → bool → Async (Service PlainObjects.runtime) string :=
  Orchestrator.addPlatformAppAsset_linked getApp getAssetUrl "/home/u/slobs" join
    basename (λ _, true) demo_net (λ _, true) md5_hex (λ _, true).

Definition service : Service PlainObjects.runtime :=
  {| io := demo_world;
     state := PlainObjects.table
                {[ "app-1"%string :=
                     {[ "gone.bin"%string := "0cc175b9c0f1b6a831c399e269772661"%string ]} ]};
     commits := [] |}.
End Scenario.

(** ** More of [util/requests]: [isUrl], [authorizedHeaders], [handleResponse] *)

Module Url.

(** The atoms of the pattern [/^https?:/]: a literal character, or a
    character that may be missing ([s?]). *)
Inductive Atom : Type :=
| Lit (c : ascii)
| Opt (c : ascii).

(** Matching a sequence of atoms at the start of a string (the pattern
    is anchored by [^] and has no flags); an optional character is tried
    first, then skipped. *)
Fixpoint match_at_start (pattern : list Atom) (x : string) : bool :=
  match pattern with
  | [] => true
  | Lit c :: rest =>
      match x with
      | String c' x' => Ascii.eqb c c' && match_at_start rest x'
      | EmptyString => false
      end
  | Opt c :: rest =>
      match x with
      | String c' x' =>
          (Ascii.eqb c c' && match_at_start rest x') || match_at_start rest x
      | EmptyString => match_at_start rest x
      end
  end.

(** [/^https?:/] *)
Definition https_pattern : list Atom :=
  [Lit "h"; Lit "t"; Lit "t"; Lit "p"; Opt "s"; Lit ":"]%char.

(** [isUrl]: [!!x.match(/^https?:/)]; [match] gives [null] or a
    (truthy) array. *)
Definition isUrl (x : string) : bool := match_at_start https_pattern x.

End Url.

Module Http.

(** A [Headers] object: its header list, in the order of the [append]
    calls.  Names keep their spelling and are compared without regard to
    case.  Strings are sequences of characters with codes up to 255. *)
Abbreviation Headers := (list (string * string)).

Definition ascii_lower (c : ascii) : ascii :=
  let n := nat_of_ascii c in
  if (65 <=? n)%nat && (n <=? 90)%nat then ascii_of_nat (n + 32) else c.

Fixpoint lower (s : string) : string :=
  match s with
  | EmptyString => EmptyString
  | String c rest => String (ascii_lower c) (lower rest)
  end.

(** [new Headers()] *)
Definition Headers_new : Headers := [].

(** HTTP whitespace: tab, line feed, carriage return, space. *)
Definition is_http_whitespace (c : ascii) : bool :=
  let n := nat_of_ascii c in
  (n =? 9)%nat || (n =? 10)%nat || (n =? 13)%nat || (n =? 32)%nat.

Fixpoint strip_leading (s : string) : string :=
  match s with
  | String c rest => if is_http_whitespace c then strip_leading rest else s
  | EmptyString => EmptyString
  end.

Fixpoint strip_trailing (s : string) : string :=
  match s with
  | EmptyString => EmptyString
  | String c rest =>
      match strip_trailing rest with
      | EmptyString => if is_http_whitespace c then EmptyString else String c EmptyString
      | kept => String c kept
      end
  end.

(** A header value is normalized by removing the whitespace at both
    ends. *)
Definition normalize (value : string) : string := strip_trailing (strip_leading value).

(** A value must not contain NUL, line feed or carriage return. *)
Fixpoint has_forbidden (value : string) : bool :=
  match value with
  | EmptyString => false
  | String c rest =>
      let n := nat_of_ascii c in
      (n =? 0)%nat || (n =? 10)%nat || (n =? 13)%nat || has_forbidden rest
  end.

(** A header name is a token: letters, digits and some punctuation. *)
Definition is_token_char (c : ascii) : bool :=
  let n := nat_of_ascii c in
  ((48 <=? n) && (n <=? 57) || (65 <=? n) && (n <=? 90) || (97 <=? n) && (n <=? 122)
   || (n =? 33) || (35 <=? n) && (n <=? 39) || (n =? 42) || (n =? 43) || (n =? 45)
   || (n =? 46) || (94 <=? n) && (n <=? 96) || (n =? 124) || (n =? 126))%nat.

Fixpoint all_token_chars (name : string) : bool :=
  match name with
  | EmptyString => true
  | String c rest => is_token_char c && all_token_chars rest
  end.

Definition valid_name (name : string) : bool :=
  negb (bool_decide (name = EmptyString)) && all_token_chars name.

(** [headers.append(name, value)]: the value is normalized; a name that is
    no token or a value with a forbidden character is a [TypeError]. *)
Definition Headers_append (headers : Headers) (name value : string) : Reason + Headers :=
  let value := normalize value in
  if valid_name name && negb (has_forbidden value)
  then inr (headers ++ [(name, value)])
  else inl (RError "TypeError").

(** The values a header list holds under a name, oldest first;
    [headers.get(name)] is these joined by a comma and a space, or [null]
    when there is none. *)
Definition Headers_values (headers : Headers) (name : string) : list string :=
  (filter (λ entry, lower entry.1 = lower name) headers).*2.

Definition Headers_get (headers : Headers) (name : string) : option string :=
  match Headers_values headers name with
  | [] => None
  | values => Some (String.concat ", " values)
  end.

(** [authorizedHeaders(token, headers = new Headers())]: the argument is
    [None] when the caller leaves it out. *)
Definition authorizedHeaders (token : string) (headers : option Headers)
    : Reason + Headers :=
  Headers_append (default Headers_new headers) "Authorization" ("Bearer " +:+ token).

(** A token that header normalization leaves as it is and that has no
    forbidden character: not empty, no whitespace at its end, no NUL,
    line feed or carriage return. *)
Fixpoint ends_visible (s : string) : bool :=
  match s with
  | EmptyString => false
  | String c EmptyString => negb (is_http_whitespace c)
  | String _ rest => ends_visible rest
  end.

Definition plain_token (token : string) : bool :=
  ends_visible token && negb (has_forbidden token).

(** JavaScript values, as [JSON.parse] and property reads give them;
    numbers are the integers. *)
#[warnings="-register-all"]
Inductive Value : Type :=
| VUndefined
| VNull
| VBool (b : bool)
| VNum (z : Z)
| VStr (s : string)
| VArr (items : list Value)
| VObj (fields : gmap string Value).

(** [v.key] or [v[key]]: [None] is the [TypeError] of reading a property
    of [null] or [undefined]; values without that property give
    [undefined]. *)
Definition get_prop (v : Value) (key : string) : option Value :=
  match v with
  | VUndefined | VNull => None
  | VObj fields => Some (default VUndefined (fields !! key))
  | _ => Some VUndefined
  end.

(** A parsed body used as a rejection reason: what [reason.status] reads,
    and the text the body was parsed from. *)
Definition as_reason (v : Value) (text : string) : Reason :=
  match v with
  | VUndefined | VNull => RUndefined
  | VObj fields =>
      RObject (match fields !! "status" with
               | Some (VNum z) => Some z
               | _ => None
               end) text
  | _ => RObject None text
  end.

(** The fields of the [Response] of an API call that the code looks at:
    the status and the text of the body. *)
Record ApiResponse : Type := mkApiResponse {
  api_status : Z;
  api_text : string;
}.

Definition api_ok (resp : ApiResponse) : bool :=
  bool_decide (200 ≤ api_status resp)%Z && bool_decide (api_status resp ≤ 299)%Z.

Section HandleResponse.
Context {W : Type}.
(** [JSON.parse]: [None] when the text is not JSON. *)
Variable JSON_parse : string → option Value.

(** [response.json()]: rejects with a [SyntaxError] on a body that does
    not parse. *)
Definition json (resp : ApiResponse) : Async W Value :=
  match JSON_parse (api_text resp) with
  | Some v => Promise.resolve v
  | None => Promise.reject (RError "SyntaxError")
  end.

Definition handleResponse (resp : ApiResponse) : Async W Value :=
  if api_ok resp then json resp
  else await body <- json resp ;; Promise.reject (as_reason body (api_text resp)).

(** [fetch(request).then(handleResponse)], the shape of every API call
    of the platform services; [send] is the [fetch] of the request built
    from the arguments. *)
Definition fetch_then_handleResponse {Args} (send : Args → Async W ApiResponse)
    (args : Args) : Async W Value :=
  await resp <- send args ;; handleResponse resp.
End HandleResponse.

End Http.

(** ** The Twitch platform service: headers, token refresh, channel info *)

Module Twitch.
Import Http.

(** What [new Request(url, { headers, method, body })] carries. *)
Record Request : Type := mkRequest {
  req_url : string;
  req_method : string;
  req_headers : Headers;
  req_body : option string;
}.

(** Streamlabs Production Twitch OAuth Client ID *)
Definition clientId : string := "8bmp6j83z5w4mepq0dn0q1a7g186azi".

(** [getRawHeaders(authorized, isNewApi)], with [this.oauthToken] passed
    in: a [TwitchRequestHeaders] object, its keys in insertion order. *)
Definition getRawHeaders (oauthToken : string) (authorized isNewApi : bool)
    : list (string * string) :=
  let map := [("Client-Id", clientId);
              ("Accept", "application/vnd.twitchtv.v5+json");
              ("Content-Type", "application/json")]%string in
  if authorized
  then map ++ [("Authorization"%string,
                (if isNewApi then "Bearer" else "OAuth") +:+ " " +:+ oauthToken)]
  else map.

(** [getHeaders]: every entry of the raw headers appended to a new
    [Headers]; an [append] that throws ends the loop. *)
Definition getHeaders (oauthToken : string) (authorized isNewApi : bool)
    : Reason + Headers :=
  foldl (λ acc entry,
           match acc with
           | inr headers => Headers_append headers entry.1 entry.2
           | inl thrown => inl thrown
           end)
    (inr Headers_new) (getRawHeaders oauthToken authorized isNewApi).

Section Service.
Context {W : Type}.
(** [userService.platform.token], [userService.apiToken] and
    [hostsService.streamlabs], read from the world at the time of the
    call; [fetch]; [userService.updatePlatformToken]; [JSON.parse]. *)
Variable oauthToken : W → string.
Variable apiToken : W → string.
Variable streamlabs : W → string.
Variable fetch : Request → Async W ApiResponse.
Variable updatePlatformToken : Value → Async W unit.
Variable JSON_parse : string → option Value.

(** [new Request(url, { headers })] of [fetchNewToken]; building the
    headers can throw. *)
Definition refreshRequest (w : W) : Reason + Request :=
  match authorizedHeaders (apiToken w) None with
  | inr headers =>
      inr {| req_url := "https://" +:+ streamlabs w +:+ "/api/v5/slobs/twitch/refresh";
             req_method := "GET";
             req_headers := headers;
             req_body := None |}
  | inl thrown => inl thrown
  end.

Definition fetchNewToken : Method W unit :=
  λ w, match refreshRequest w with
       | inr request =>
           inr ((await resp <- fetch request ;;
                 await response <- handleResponse JSON_parse resp ;;
                 match get_prop response "access_token" with
                 | Some access_token => updatePlatformToken access_token
                 | None => Promise.reject (RError "TypeError")
                 end) w)
       | inl thrown => inl thrown
       end.

Definition channelRequest (w : W) : Reason + Request :=
  match getHeaders (oauthToken w) true false with
  | inr headers =>
      inr {| req_url := "https://api.twitch.tv/kraken/channel";
             req_method := "GET";
             req_headers := headers;
             req_body := None |}
  | inl thrown => inl thrown
  end.

(** The method body of [fetchRawChannelInfo], before decoration. *)
Definition fetchRawChannelInfo_original (args : unit) : Method W Value :=
  λ w, match channelRequest w with
       | inr request =>
           inr ((await resp <- fetch request ;; handleResponse JSON_parse resp) w)
       | inl thrown => inl thrown
       end.

(** [@requiresToken() fetchRawChannelInfo()]: a throw of the first call
    of the method leaves the decorated method as a throw; the refresh and
    the replay run inside handlers. *)
Definition fetchRawChannelInfo : Method W Value :=
  λ w, match fetchRawChannelInfo_original tt w with
       | inr _ =>
           inr (Middleware.requiresToken
                  (λ args, in_handler (fetchRawChannelInfo_original args))
                  (in_handler fetchNewToken) tt w)
       | inl thrown => inl thrown
       end.

(** [fetchStreamKey]: [json => json.stream_key] *)
Definition fetchStreamKey : Method W Value :=
  λ w, match fetchRawChannelInfo w with
       | inr (o, w') =>
           inr ((await json <- (λ _ : W, (o, w')) ;;
                 match get_prop json "stream_key" with
                 | Some stream_key => Promise.resolve stream_key
                 | None => Promise.reject (RError "TypeError")
                 end) w)
       | inl thrown => inl thrown
       end.
End Service.

End Twitch.

(** ** The developer settings page: [AppPlatformDeveloperSettings] *)

(** The fields of an enabled app that the page reads. *)
Record EnabledApp : Type := mkEnabledApp {
  enabled_id : string;
  unpacked : bool;
  appPath : string;
  appCustomUrl : string;
  appToken : string;
}.

(** The reactive data of the page. *)
Record Settings : Type := mkSettings {
  appPathValue : string;
  appCustomUrlValue : string;
  appTokenValue : string;
  loading : bool;
  error : string;
}.

(** The page and the [platformAppsService] (of state [S]) it drives. *)
Record Page (S : Type) : Type := mkPage {
  service : S;
  view : Settings;
}.
Arguments mkPage {S} service view.
Arguments service {S} p.
Arguments view {S} p.

Module DeveloperSettings.

Definition load_failed : string :=
  "There was an error loading this app, please try again " +:+
  "or contact the Streamlabs development team for assistance.".

(** [!!s] for a string. *)
Definition nonempty (s : string) : bool := negb (bool_decide (s = EmptyString)).

Definition set_loading (b : bool) (v : Settings) : Settings :=
  {| appPathValue := appPathValue v; appCustomUrlValue := appCustomUrlValue v;
     appTokenValue := appTokenValue v; loading := b; error := error v |}.

Definition set_error (e : string) (v : Settings) : Settings :=
  {| appPathValue := appPathValue v; appCustomUrlValue := appCustomUrlValue v;
     appTokenValue := appTokenValue v; loading := loading v; error := e |}.

Section Page.
Context {S : Type}.
(** [platformAppsService]: [enabledApps], [unloadApps],
    [installUnpackedApp], [reloadApp], [unloadApp]. *)
Variable platform_enabledApps : S → list EnabledApp.
Variable platform_unloadApps : S → S.
Variable platform_installUnpackedApp : string → string → string → Async S string.
Variable platform_reloadApp : string → Async S string.
Variable platform_unloadApp : option EnabledApp → S → S.

Definition on_service {A} (m : Async S A) : Async (Page S) A :=
  λ p, let '(o, s) := m (service p) in (o, {| service := s; view := view p |}).

Definition update (f : Settings → Settings) : Async (Page S) unit :=
  Promise.effect (λ p, {| service := service p; view := f (view p) |}).

(** The getter [currentlyLoadedUnpackedApp]: [null] without enabled
    apps, else what [find] gives, [undefined] when no app is unpacked;
    both are [None]. *)
Definition currentlyLoadedUnpackedApp (s : S) : option EnabledApp :=
  if decide (length (platform_enabledApps s) = 0) then None
  else List.find unpacked (platform_enabledApps s).

(** The initial values of the three fields of the form. *)
Definition initial (s : S) : Settings :=
  {| appPathValue := from_option appPath EmptyString (currentlyLoadedUnpackedApp s);
     appCustomUrlValue := from_option appCustomUrl EmptyString (currentlyLoadedUnpackedApp s);
     appTokenValue := from_option appToken EmptyString (currentlyLoadedUnpackedApp s);
     loading := false;
     error := EmptyString |}.

Definition loadApp : Async (Page S) unit :=
  λ p,
    if negb (nonempty (appPathValue (view p))) then (Fulfilled tt, p)
    else if negb (nonempty (appTokenValue (view p))) then (Fulfilled tt, p)
    else
      (await _ <- match currentlyLoadedUnpackedApp (service p) with
                  | Some _ =>
                      Promise.effect (λ p, {| service := platform_unloadApps (service p);
                                              view := view p |})
                  | None => Promise.resolve tt
                  end ;;
       await _ <- update (set_loading true) ;;
       await _ <- Promise.catch
                    (await e <- on_service (platform_installUnpackedApp (appPathValue (view p))
                                              (appCustomUrlValue (view p))
                                              (appTokenValue (view p))) ;;
                     update (set_error e))
                    (λ _, update (set_error load_failed)) ;;
       update (set_loading false)) p.

Definition reloadApp : Async (Page S) unit :=
  await _ <- update (set_loading true) ;;
  await _ <- update (set_error EmptyString) ;;
  await _ <- Promise.catch
               (λ p, match currentlyLoadedUnpackedApp (service p) with
                     | Some app =>
                         (await e <- on_service (platform_reloadApp (enabled_id app)) ;;
                          update (set_error e)) p
                     | None => (Rejected (RError "TypeError"), p)
                     end)
               (λ _, update (set_error load_failed)) ;;
  update (set_loading false).

Definition unloadApp (p : Page S) : Page S :=
  {| service := platform_unloadApp (currentlyLoadedUnpackedApp (service p)) (service p);
     view := view p |}.
End Page.

End DeveloperSettings.

(** ** More scenarios *)

Module ScenarioMore.
Import Http.

(** A [JSON.parse] that knows the bodies of the scenario by name. *)
Definition parse (text : string) : option Value :=
  if bool_decide (text = "body:invalid-token"%string)
  then Some (VObj {[ "status"%string := VNum 401;
                     "message"%string := VStr "invalid oauth token" ]})
  else if bool_decide (text = "body:unauthorized"%string)
  then Some (VObj {[ "error"%string := VStr "Unauthorized" ]})
  else if bool_decide (text = "body:channel"%string)
  then Some (VObj {[ "stream_key"%string := VStr "live_123";
                     "status"%string := VStr "Playing" ]})
  else if bool_decide (text = "body:token"%string)
  then Some (VObj {[ "access_token"%string := VStr "fresh" ]})
  else None.

(** A gateway that fails with status 500 and a body saying 401 while the
    token is stale. *)
Definition gateway (channel : string) : Async bool ApiResponse :=
  λ fresh, (Fulfilled (if fresh
                       then {| api_status := 200; api_text := "body:channel" |}
                       else {| api_status := 500; api_text := "body:invalid-token" |}),
            fresh).

(** A server that answers 401 with a body that has no [status] member. *)
Definition terse (channel : string) : Async bool ApiResponse :=
  λ fresh, (Fulfilled {| api_status := 401; api_text := "body:unauthorized" |}, fresh).

Definition refreshDown : Async bool unit :=
  λ fresh, (Rejected (RObject (Some 503%Z) "refresh unavailable"), fresh).

Definition rejectsWithUndefined (channel : string) : Async bool string :=
  λ fresh, (Rejected RUndefined, fresh).

Definition forbidden (channel : string) : Async bool string :=
  λ fresh, (Rejected (RObject (Some 403%Z) "forbidden"), fresh).

(** The user's tokens and every request sent so far. *)
Record TwitchWorld : Type := mkTwitchWorld {
  platform_token : string;
  api_token : string;
  sent : list Twitch.Request;
}.

(** Twitch accepts the token [fresh] only; Streamlabs hands it out. *)
Definition twitch_fetch (request : Twitch.Request) : Async TwitchWorld ApiResponse :=
  λ w,
    (Fulfilled
       (if bool_decide (Twitch.req_url request = "https://api.twitch.tv/kraken/channel"%string)
        then if bool_decide (Headers_get (Twitch.req_headers request) "Authorization"
                             = Some "OAuth fresh"%string)
             then {| api_status := 200; api_text := "body:channel" |}
             else {| api_status := 401; api_text := "body:invalid-token" |}
        else {| api_status := 200; api_text := "body:token" |}),
     {| platform_token := platform_token w; api_token := api_token w;
        sent := sent w ++ [request] |}).

Definition updatePlatformToken (token : Value) : Async TwitchWorld unit :=
  Promise.effect (λ w,
    {| platform_token := match token with VStr s => s | _ => "undefined"%string end;
       api_token := api_token w; sent := sent w |}).

Definition stale : TwitchWorld :=
  {| platform_token := "stale"; api_token := "slobs-api"; sent := [] |}.

Definition fetchRawChannelInfo : Method TwitchWorld Value :=
  Twitch.fetchRawChannelInfo platform_token api_token (λ _, "streamlabs.com"%string)
    twitch_fetch updatePlatformToken parse.

(** A platform-apps service whose state is the list of enabled apps:
    installing adds an unpacked app, unless the folder has no manifest. *)
Definition installUnpackedApp (path customUrl token : string)
    : Async (list EnabledApp) string :=
  λ apps, if bool_decide (path = "/dev/no-manifest"%string)
          then (Rejected (RError "manifest.json not found"), apps)
          else (Fulfilled EmptyString,
                apps ++ [mkEnabledApp "dev-app" true path customUrl token]).

Definition reloadApp (appId : string) : Async (list EnabledApp) string :=
  λ apps, (Fulfilled EmptyString, apps).

Definition storeApp : EnabledApp :=
  mkEnabledApp "store-app" false EmptyString EmptyString EmptyString.

Definition form (path token : string) : Settings :=
  {| appPathValue := path; appCustomUrlValue := EmptyString; appTokenValue := token;
     loading := false; error := "stale message" |}.

Definition loadApp : Async (Page (list EnabledApp)) unit :=
  DeveloperSettings.loadApp (λ apps, apps) (λ _, []) installUnpackedApp.

Definition reloadPage : Async (Page (list EnabledApp)) unit :=
  DeveloperSettings.reloadApp (λ apps, apps) reloadApp.
End ScenarioMore.

(** * Properties *)

(** ** The asset cache store: [getAsset], [hasAsset], [ADD_ASSET] *)

Module AssetsFacts.
Import Assets.

Section Facts.
Context {rt : Runtime}.
Implicit Types (st : Table rt) (appId assetName checksum : string).

Lemma Vue_set_ordinary {V} (h : Heap rt) (holder : option string)
    (obj : gmap string V) (key : string) (value : V) :
  unstored h holder key = None → Vue_set h holder obj key value = <[key := value]> obj.
Proof. intros Hnone. unfold Vue_set. by rewrite Hnone. Qed.

(** For an application id that the state object answers with stored
    entries only, [ADD_ASSET] is one update of the stored table: it
    does not throw and leaves the objects around the table alone. *)
Lemma ADD_ASSET_ordinary_app st appId assetName checksum :
  ordinary_app st appId →
  ADD_ASSET appId assetName checksum st
  = inr {| stored := <[appId := Vue_set (heap st) (Some appId)
                                  (default ∅ (stored st !! appId)) assetName checksum]>
                       (stored st);
           heap := heap st |}.
Proof.
  unfold ordinary_app. intros Happ. unfold ADD_ASSET, read_state.
  destruct (stored st !! appId) as [appAssets|] eqn:Hstored; cbn.
  - by rewrite Hstored.
  - rewrite Happ. cbn. rewrite Vue_set_ordinary by done.
    by rewrite lookup_insert_eq, insert_insert_eq.
Qed.

Lemma ADD_ASSET_insert st appId assetName checksum :
  ordinary_app st appId → ordinary_asset st appId assetName →
  ADD_ASSET appId assetName checksum st
  = inr {| stored := <[appId := <[assetName := checksum]>
                                  (default ∅ (stored st !! appId))]> (stored st);
           heap := heap st |}.
Proof.
  intros Happ Hasset. rewrite ADD_ASSET_ordinary_app by done.
  by rewrite Vue_set_ordinary.
Qed.

(** [lookup] after [record] returns the recorded checksum, whatever the
    string is. *)
Lemma getAsset_ADD_ASSET st st' appId assetName checksum :
  ordinary_app st appId → ordinary_asset st appId assetName →
  ADD_ASSET appId assetName checksum st = inr st' →
  getAsset st' appId assetName = inr (JString checksum).
Proof.
  intros Happ Hasset. rewrite ADD_ASSET_insert by done. intros [= <-].
  unfold getAsset, read_state, prop. cbn.
  by rewrite lookup_insert_eq, lookup_insert_eq.
Qed.

(** Recording twice is the same as recording the last checksum only. *)
Lemma ADD_ASSET_twice st appId assetName cs0 cs :
  ordinary_app st appId →
  ∃ st0, ADD_ASSET appId assetName cs0 st = inr st0
         ∧ ADD_ASSET appId assetName cs st0 = ADD_ASSET appId assetName cs st.
Proof.
  intros Happ. eexists. split; [by apply ADD_ASSET_ordinary_app|].
  rewrite !ADD_ASSET_ordinary_app by done. cbn.
  rewrite lookup_insert_eq, insert_insert_eq. cbn.
  do 3 f_equal. unfold Vue_set.
  destruct (unstored (heap st) (Some appId) assetName);
    [destruct (shadows (heap st) (Some appId) assetName)|];
    by rewrite ?insert_insert_eq.
Qed.

(** [ADD_ASSET] throws only when [this.state[appId]] is a value that the
    state object does not store and the write to that value throws; no
    entry has been stored by then. *)
Lemma ADD_ASSET_throws st appId assetName checksum (thrown : Reason) :
  ADD_ASSET appId assetName checksum st = inl thrown →
  ∃ f, read_state st appId = Beyond f
       ∧ foreign_set f assetName checksum (heap st) = inl thrown.
Proof.
  unfold ADD_ASSET, read_state.
  destruct (stored st !! appId) as [appAssets|] eqn:Hstored; cbn.
  { by rewrite Hstored. }
  destruct (unstored (heap st) None appId) as [f|] eqn:Hf; cbn.
  - destruct (truthy (seen_as f)); cbn.
    + rewrite ?Hstored, ?Hf. intros Hset. exists f. split; [done|].
      by destruct (foreign_set f assetName checksum (heap st)); simplify_eq.
    + unfold Vue_set. rewrite ?Hf. destruct (shadows (heap st) None appId); cbn.
      * by rewrite lookup_insert_eq.
      * rewrite ?Hstored, ?Hf. intros Hset. exists f. split; [done|].
        by destruct (foreign_set f assetName checksum (heap st)); simplify_eq.
  - unfold Vue_set. rewrite ?Hf. cbn. by rewrite lookup_insert_eq.
Qed.

Lemma truthy_JString (s : string) : truthy (JString s) = true ↔ s ≠ EmptyString.
Proof.
  simpl. rewrite negb_true_iff, bool_decide_eq_false. done.
Qed.

(** The lookup of a pair other than the recorded one finds the same
    checksum, or none, as before. *)
Lemma getAsset_ADD_ASSET_other st st' appId assetName checksum appId' assetName' :
  (appId', assetName') ≠ (appId, assetName) →
  ordinary_app st appId →
  (appId' = appId → ordinary_asset st appId assetName') →
  ADD_ASSET appId assetName checksum st = inr st' →
  found_checksum (getAsset st' appId' assetName')
  = found_checksum (getAsset st appId' assetName')
  ∧ hasAsset st' appId' assetName' = hasAsset st appId' assetName'
  ∧ (appId' ≠ appId → getAsset st' appId' assetName' = getAsset st appId' assetName').
Proof.
  intros Hne Happ Hasset. rewrite ADD_ASSET_ordinary_app by done. intros [= <-].
  destruct (decide (appId' = appId)) as [->|Hother].
  - assert (assetName' ≠ assetName) as Hname by congruence.
    specialize (Hasset eq_refl). unfold ordinary_app, ordinary_asset in *.
    unfold hasAsset, getAsset, read_state, prop. cbn.
    rewrite lookup_insert_eq, Happ, Hasset.
    assert (Hsame : ∀ m : AssetsMap,
              Vue_set (heap st) (Some appId) m assetName checksum !! assetName'
              = m !! assetName').
    { intros m. unfold Vue_set.
      destruct (unstored (heap st) (Some appId) assetName);
        [destruct (shadows (heap st) (Some appId) assetName)|];
        by rewrite ?lookup_insert_ne. }
    rewrite Hsame.
    destruct (stored st !! appId) as [appAssets|]; cbn.
    + done.
    + by rewrite lookup_empty.
  - unfold hasAsset, getAsset, read_state. cbn.
    by rewrite lookup_insert_ne.
Qed.
End Facts.

(** C6, as stated, fails: recording the empty string makes [lookup]
    return it, and [has] answers [false]; and a record under a key that
    the objects answer by themselves is not what the lookup finds, as for
    [__proto__], where the lookup gives [null]. *)
Lemma record_empty_checksum_not_has :
  (∃ st', ADD_ASSET "app-1" "transition.mp4" EmptyString
            (PlainObjects.table defaultState) = inr st'
          ∧ getAsset st' "app-1" "transition.mp4" = inr (JString EmptyString)
          ∧ hasAsset st' "app-1" "transition.mp4" = inr false)
  ∧ (∃ st', ADD_ASSET "__proto__" "__proto__" "0cc175b9"
              (PlainObjects.table defaultState) = inr st'
            ∧ getAsset st' "__proto__" "__proto__" = inr JNull
            ∧ hasAsset st' "__proto__" "__proto__" = inr false).
Proof. split; eexists; repeat split. Qed.

(** C6 (amended): for every prior state of the table, every [appId] and
    [assetName] that the state object and the submap answer with stored
    entries only (so no member of [Object.prototype]), and every
    checksum [cs], after [record(appId, assetName, cs)] the lookup returns
    [cs], and [has] returns true when [cs] is not the empty string; after
    an earlier record of any other checksum [cs0] for the same pair the
    table is the one that recording [cs] alone gives, so only [cs] is
    visible. *)
Theorem record_then_lookup_and_has {rt : Runtime}
    (st : Table rt) (appId assetName cs : string) :
  ordinary_app st appId → ordinary_asset st appId assetName →
  ∃ st', ADD_ASSET appId assetName cs st = inr st'
         ∧ getAsset st' appId assetName = inr (JString cs)
         ∧ (cs ≠ EmptyString → hasAsset st' appId assetName = inr true)
         ∧ ∀ cs0 : string,
             ∃ st0, ADD_ASSET appId assetName cs0 st = inr st0
                    ∧ ADD_ASSET appId assetName cs st0 = inr st'.
Proof.
  intros Happ Hasset.
  destruct (ADD_ASSET appId assetName cs st) as [thrown|st'] eqn:Hrecord;
    [by rewrite ADD_ASSET_insert in Hrecord|].
  exists st'. split; [done|].
  pose proof (getAsset_ADD_ASSET st st' appId assetName cs Happ Hasset Hrecord) as Hlookup.
  split; [done|]. split.
  - intros Hcs. unfold hasAsset. rewrite Hlookup. f_equal. by apply truthy_JString.
  - intros cs0. destruct (ADD_ASSET_twice st appId assetName cs0 cs Happ)
      as (st0 & Hfirst & Hsecond).
    exists st0. split; [done|]. by rewrite Hsecond.
Qed.

Lemma record_then_lookup_and_has_witness :
  let st := PlainObjects.table {[ "app-1" := {[ "transition.mp4" := "0cc175b9" ]} ]} in
  ∃ st', ADD_ASSET "app-1" "transition.mp4" "92eb5ffe" st = inr st'
         ∧ getAsset st' "app-1" "transition.mp4" = inr (JString "92eb5ffe")
         ∧ hasAsset st' "app-1" "transition.mp4" = inr true.
Proof.
  intros st.
  destruct (record_then_lookup_and_has st "app-1" "transition.mp4" "92eb5ffe")
    as (st' & Hrecord & Hlookup & Hhas & _); [reflexivity | reflexivity |].
  exists st'. split; [exact Hrecord|]. split; [exact Hlookup|].
  apply Hhas. discriminate.
Defined.

(** C7, as stated, fails: a stored empty string is present for [lookup]
    while [has] answers [false]; so is the [length] of a function that
    the state object answers by itself. *)
Lemma has_false_on_present_empty_checksum :
  let st := PlainObjects.table {[ "app-1" := {[ "transition.mp4" := EmptyString ]} ]} in
  (getAsset st "app-1" "transition.mp4" = inr (JString EmptyString)
   ∧ present (JString EmptyString)
   ∧ hasAsset st "app-1" "transition.mp4" = inr false)
  ∧ (getAsset st "toString" "length" = inr (JOther false)
     ∧ present (JOther false)
     ∧ hasAsset st "toString" "length" = inr false).
Proof. repeat split. Qed.

(** C7 (amended): for every state of the table and every
    [(appId, assetName)] that the state object and the submap answer with
    stored entries only, and whose stored checksum, if there is one, is
    not the empty string, [has(appId, assetName)] is true if and only if
    [lookup(appId, assetName)] is present. *)
Theorem has_iff_lookup_present {rt : Runtime}
    (st : Table rt) (appId assetName : string) :
  ordinary_app st appId → ordinary_asset st appId assetName →
  getAsset st appId assetName ≠ inr (JString EmptyString) →
  hasAsset st appId assetName = inr true
  ↔ ∃ x, getAsset st appId assetName = inr x ∧ present x.
Proof.
  unfold ordinary_app, ordinary_asset, hasAsset, getAsset, read_state, prop.
  intros -> Hasset.
  destruct (stored st !! appId) as [appAssets|]; cbn.
  - rewrite Hasset. destruct (appAssets !! assetName) as [s|]; cbn.
    + intros Hne. split.
      * intros _. by exists (JString s).
      * intros _. f_equal. rewrite negb_true_iff, bool_decide_eq_false.
        intros ->. by apply Hne.
    + intros _. split; [done|]. by intros (x & [= <-] & ?).
  - intros _. split; [done|]. by intros (x & [= <-] & ?).
Qed.

Lemma has_iff_lookup_present_witness :
  let st := PlainObjects.table {[ "app-1" := {[ "transition.mp4" := "0cc175b9" ]} ]} in
  (hasAsset st "app-1" "transition.mp4" = inr true
   ↔ ∃ x, getAsset st "app-1" "transition.mp4" = inr x ∧ present x)
  ∧ (hasAsset st "app-1" "missing.mp4" = inr true
     ↔ ∃ x, getAsset st "app-1" "missing.mp4" = inr x ∧ present x).
Proof.
  intros st. split.
  - apply (has_iff_lookup_present st "app-1" "transition.mp4");
      [reflexivity | reflexivity | discriminate].
  - apply (has_iff_lookup_present st "app-1" "missing.mp4");
      [reflexivity | reflexivity | discriminate].
Defined.

(** C10, as stated, fails: the record that creates the submap of an
    application changes what [has] answers for another pair of that
    application, when the asset name is one the new submap answers by
    itself; and a record under [__proto__] stores no entry in the table
    and changes the lookup of other applications' pairs. *)
Lemma record_changes_other_pairs :
  (hasAsset (PlainObjects.table defaultState) "app-1" "toString" = inr false
   ∧ ∃ st', ADD_ASSET "app-1" "a.webm" "0cc175b9" (PlainObjects.table defaultState)
            = inr st'
            ∧ hasAsset st' "app-1" "toString" = inr true)
  ∧ (let st := PlainObjects.table {[ "app-1" := ∅ ]} in
     getAsset st "app-1" "intro.webm" = inr JUndefined
     ∧ ∃ st', ADD_ASSET "__proto__" "intro.webm" "0cc175b9" st = inr st'
              ∧ stored st' = stored st
              ∧ getAsset st' "app-1" "intro.webm" = inr (JString "0cc175b9")).
Proof. split; [split; [reflexivity | eexists; split; reflexivity]|].
  split; [reflexivity | eexists; repeat split].
Qed.

(** C10 (amended): when [appId] is a key that the state object answers
    with stored entries only, [record(appId, assetName, checksum)] does
    not throw and leaves every other pair as it was: for a pair
    [(appId', assetName')] different from [(appId, assetName)] (and, when
    it is a pair of [appId] itself, with an asset name that the submap
    answers with stored entries only) the checksum found and the answer of
    [has] are unchanged, the entries stored for every other application
    are untouched, also when the submap of [appId] is created by the call,
    and so are the objects around the table. *)
Theorem ADD_ASSET_frame {rt : Runtime}
    (st : Table rt) (appId assetName checksum appId' assetName' : string) :
  (appId', assetName') ≠ (appId, assetName) →
  ordinary_app st appId →
  (appId' = appId → ordinary_asset st appId assetName') →
  ∃ st', ADD_ASSET appId assetName checksum st = inr st'
         ∧ found_checksum (getAsset st' appId' assetName')
           = found_checksum (getAsset st appId' assetName')
         ∧ hasAsset st' appId' assetName' = hasAsset st appId' assetName'
         ∧ (appId' ≠ appId →
            stored st' !! appId' = stored st !! appId'
            ∧ getAsset st' appId' assetName' = getAsset st appId' assetName')
         ∧ heap st' = heap st.
Proof.
  intros Hne Happ Hasset.
  destruct (ADD_ASSET appId assetName checksum st) as [thrown|st'] eqn:Hrecord;
    [by rewrite ADD_ASSET_ordinary_app in Hrecord|].
  exists st'. split; [done|].
  destruct (getAsset_ADD_ASSET_other st st' appId assetName checksum appId' assetName'
              Hne Happ Hasset Hrecord) as (Hfound & Hhas & Hget).
  split; [done|]. split; [done|].
  rewrite ADD_ASSET_ordinary_app in Hrecord by done. injection Hrecord as <-.
  split; [|done]. intros Hother. split; [|by apply Hget].
  cbn. by rewrite lookup_insert_ne.
Qed.

Lemma ADD_ASSET_frame_witness :
  let st := PlainObjects.table {[ "app-1" := {[ "transition.mp4" := "0cc175b9" ]} ]} in
  ∃ st', ADD_ASSET "app-2" "intro.webm" "92eb5ffe" st = inr st'
         ∧ hasAsset st' "app-1" "transition.mp4" = hasAsset st "app-1" "transition.mp4"
         ∧ stored st' !! "app-1" = stored st !! "app-1".
Proof.
  intros st.
  destruct (ADD_ASSET_frame st "app-2" "intro.webm" "92eb5ffe" "app-1" "transition.mp4")
    as (st' & Hrecord & _ & Hhas & Hother & _);
    [discriminate | reflexivity | discriminate |].
  exists st'. split; [exact Hrecord|]. split; [exact Hhas|].
  apply Hother. discriminate.
Defined.

(** The value [getAsset] returns for an absent asset does change when the
    submap is created: [null] before, [undefined] after. *)
Example getAsset_null_then_undefined :
  getAsset (PlainObjects.table defaultState) "app-1" "b.mp4" = inr JNull
  ∧ ∃ st', ADD_ASSET "app-1" "a.mp4" "0cc175b9" (PlainObjects.table defaultState)
           = inr st'
           ∧ getAsset st' "app-1" "b.mp4" = inr JUndefined.
Proof. split; [reflexivity | eexists; split; reflexivity]. Qed.

End AssetsFacts.

(** ** The streaming downloader: [downloadFile] *)

Module DownloadFacts.
Import Requests DownloadSpec.

Lemma u8_set_fits (c src : bytes) (offset : nat) :
  offset + length src ≤ length c →
  u8_set c src offset = Some (take offset c ++ src ++ drop (offset + length src) c).
Proof. intros Hfit. unfold u8_set. by rewrite decide_True. Qed.

(** [concatUint8Arrays] never overflows its buffer and is list append. *)
Lemma concatUint8Arrays_app (a b : bytes) : concatUint8Arrays a b = Some (a ++ b).
Proof.
  unfold concatUint8Arrays, u8_new.
  rewrite u8_set_fits by (rewrite length_replicate; simpl; lia).
  simpl. rewrite drop_replicate, Nat.add_sub_swap, Nat.sub_diag by lia. simpl.
  rewrite u8_set_fits by (rewrite length_app, length_replicate; lia).
  f_equal. rewrite take_app_length.
  rewrite drop_ge by (rewrite length_app, length_replicate; lia).
  by rewrite app_nil_r.
Qed.

Section Facts.
Variable net : string → FetchResult.
Variable writable : string → bool.

Lemma read_then_readStream_after (dstPath : string) (s : Stream) :
  ∀ (result : bytes) (e : Exec unit),
    (read_then_readStream writable dstPath s result e).2
    = after_stream writable dstPath s result e.
Proof.
  induction s as [value rest IH| | |]; intros result [[files steps] slot].
  - cbn [read_then_readStream]. unfold Promise.then_, Executor.lift, Promise.effect.
    cbn [world settled log fs trace].
    rewrite concatUint8Arrays_app. unfold Promise.detached. cbn [snd].
    rewrite IH. unfold after_stream, log. cbn.
    rewrite <-!app_assoc. reflexivity.
  - unfold after_stream. cbn. unfold Promise.then_, Executor.lift, Promise.effect,
      writeFileSync. cbn.
    rewrite !app_nil_r. destruct (writable dstPath); cbn.
    + rewrite <-(assoc_L (++)). by destruct slot.
    + done.
  - unfold after_stream. cbn. by rewrite app_nil_r.
  - unfold after_stream. cbn. by rewrite app_nil_r.
Qed.

(** [downloadFile], case by case on what [fetch] does. *)
Lemma downloadFile_fetch_fails (srcUrl dstPath message : string) (w : World) :
  net srcUrl = NetFail message →
  downloadFile net writable srcUrl dstPath w = (Pending, log (EFetch srcUrl) w).
Proof.
  intros Hnet. unfold downloadFile, Executor.new_Promise, Promise.then_,
    Executor.lift, fetch. cbn. by rewrite Hnet.
Qed.

Lemma downloadFile_fetch_stalls (srcUrl dstPath : string) (w : World) :
  net srcUrl = NetStall →
  downloadFile net writable srcUrl dstPath w = (Pending, log (EFetch srcUrl) w).
Proof.
  intros Hnet. unfold downloadFile, Executor.new_Promise, Promise.then_,
    Executor.lift, fetch. cbn. by rewrite Hnet.
Qed.

Lemma downloadFile_not_ok (srcUrl dstPath : string) (resp : Response) (w : World) :
  net srcUrl = NetResponse resp → ok resp = false →
  downloadFile net writable srcUrl dstPath w = (Pending, log (EFetch srcUrl) w).
Proof.
  intros Hnet Hok. unfold downloadFile, Executor.new_Promise, Promise.then_,
    Executor.lift, fetch. cbn. by rewrite Hnet, Hok.
Qed.

Lemma downloadFile_ok (srcUrl dstPath : string) (resp : Response) (w : World) :
  net srcUrl = NetResponse resp → ok resp = true →
  downloadFile net writable srcUrl dstPath w =
  let e := after_stream writable dstPath (body resp) []
             {| world := log (EFetch srcUrl) w; settled := None |} in
  (match settled e with Some o => o | None => Pending end, world e).
Proof.
  intros Hnet Hok. unfold downloadFile, Executor.new_Promise.
  cbn zeta. rewrite <-read_then_readStream_after.
  unfold Promise.then_, Executor.lift, fetch. cbn [world settled].
  rewrite Hnet, Hok. reflexivity.
Qed.
(** The executor only ever calls [resolve]: whatever happens,
    [downloadFile] does not reject. *)
Lemma downloadFile_never_rejects (srcUrl dstPath : string) (w : World) (r : Reason) :
  (downloadFile net writable srcUrl dstPath w).1 ≠ Rejected r.
Proof.
  destruct (net srcUrl) as [message| |resp] eqn:Hnet.
  - by rewrite (downloadFile_fetch_fails _ _ message).
  - by rewrite downloadFile_fetch_stalls.
  - destruct (ok resp) eqn:Hok.
    + rewrite (downloadFile_ok _ _ resp) by done.
      unfold after_stream. cbn.
      by destruct (ends_done (body resp)), (writable dstPath).
    + by rewrite (downloadFile_not_ok _ _ resp).
Qed.

(** C1 (what the code does): when the initial fetch yields a response
    that is not successful, [downloadFile] writes nothing, the file
    system is as it was and the only step taken is the fetch, and its
    promise is left pending for ever: it is not rejected. *)
Theorem downloadFile_unsuccessful_response
    (srcUrl dstPath : string) (resp : Response) (w : World) :
  net srcUrl = NetResponse resp → ok resp = false →
  (downloadFile net writable srcUrl dstPath w).1 = Pending
  ∧ fs (downloadFile net writable srcUrl dstPath w).2 = fs w
  ∧ trace (downloadFile net writable srcUrl dstPath w).2 = trace w ++ [EFetch srcUrl].
Proof.
  intros Hnet Hok. by rewrite (downloadFile_not_ok _ _ resp).
Qed.

(** C8: [downloadFile] resolves, with no value, exactly when the fetch
    gives a successful response whose body reaches its end and the
    destination can be written; the steps it then takes are the fetch,
    the chunks in arrival order, the end-of-stream signal and, last, one
    write to the destination of the concatenation of all the chunks,
    which is what the destination holds afterwards. *)
Theorem downloadFile_success (srcUrl dstPath : string) (w w' : World) :
  downloadFile net writable srcUrl dstPath w = (Fulfilled tt, w')
  ↔ ∃ resp : Response,
      net srcUrl = NetResponse resp ∧ ok resp = true
      ∧ ends_done (body resp) = true ∧ writable dstPath = true
      ∧ w' = {| fs := <[dstPath := concat (chunks_of (body resp))]> (fs w);
                trace := trace w
                         ++ EFetch srcUrl :: map EChunk (chunks_of (body resp))
                         ++ [EEnd; EWrite dstPath (concat (chunks_of (body resp)))] |}.
Proof.
  split.
  - destruct (net srcUrl) as [message| |resp] eqn:Hnet.
    + by rewrite (downloadFile_fetch_fails _ _ message).
    + by rewrite downloadFile_fetch_stalls.
    + destruct (ok resp) eqn:Hok; [|by rewrite (downloadFile_not_ok _ _ resp)].
      rewrite (downloadFile_ok _ _ resp) by done.
      unfold after_stream, log. cbn.
      destruct (ends_done (body resp)) eqn:Hend; [|done].
      destruct (writable dstPath) eqn:Hwr; [|done]. cbn.
      intros [= <-]. exists resp. repeat split; try done.
      by rewrite <-!app_assoc.
  - intros (resp & Hnet & Hok & Hend & Hwr & ->).
    rewrite (downloadFile_ok _ _ resp) by done.
    unfold after_stream, log. rewrite Hend, Hwr. cbn.
    by rewrite <-!app_assoc.
Qed.
End Facts.

Lemma downloadFile_unsuccessful_response_witness :
  (downloadFile Scenario.demo_net (λ _, true) "https://cdn.example/gone.bin" "/assets/gone.bin"
     Scenario.demo_world).1 = Pending
  ∧ fs (downloadFile Scenario.demo_net (λ _, true) "https://cdn.example/gone.bin"
          "/assets/gone.bin" Scenario.demo_world).2 !! "/assets/gone.bin"%string
    = Some [Byte.x2a].
Proof.
  destruct (downloadFile_unsuccessful_response Scenario.demo_net (λ _, true)
              "https://cdn.example/gone.bin" "/assets/gone.bin"
              {| status := 404; body := SDone |} Scenario.demo_world)
    as (Hpending & Hfs & _); [reflexivity | reflexivity |].
  split; [exact Hpending | by rewrite Hfs].
Defined.

(** A run of the successful case. *)
Example downloadFile_two_chunks :
  downloadFile Scenario.demo_net (λ _, true) "https://cdn.example/ok.bin" "/assets/ok.bin"
    {| fs := ∅; trace := [] |}
  = (Fulfilled tt,
     {| fs := {[ "/assets/ok.bin"%string := [Byte.x01; Byte.x02; Byte.x03] ]};
        trace := [EFetch "https://cdn.example/ok.bin";
                  EChunk [Byte.x01; Byte.x02]; EChunk [Byte.x03]; EEnd;
                  EWrite "/assets/ok.bin" [Byte.x01; Byte.x02; Byte.x03]] |}).
Proof. reflexivity. Qed.
End DownloadFacts.

(** ** The token-refresh decorator: [requiresToken] *)

Module MiddlewareFacts.
Import Middleware.

Section Facts.
Context {W Args Val : Type}.
Variable original : Args → Async W Val.
Variable fetchNewToken : Async W unit.

(** The wrapped method resolves: no refresh, one call. *)
Lemma decorated_success (args : Args) (w0 w1 : W) (v : Val) (seen : list (Call Args)) :
  original args w0 = (Fulfilled v, w1) →
  decorated original fetchNewToken args {| inner := w0; calls := seen |}
  = (Fulfilled v, {| inner := w1; calls := seen ++ [CallOriginal args] |}).
Proof.
  intros H0. unfold decorated, requiresToken, Promise.catch, probed_original, probed.
  cbn. by rewrite H0.
Qed.

(** Any other rejection passes through, with no refresh and no replay. *)
Lemma decorated_other_failure (args : Args) (w0 w1 : W) (error : Reason)
    (st : option Z) (seen : list (Call Args)) :
  original args w0 = (Rejected error, w1) →
  reason_status error = Some st → st ≠ Some 401%Z →
  decorated original fetchNewToken args {| inner := w0; calls := seen |}
  = (Rejected error, {| inner := w1; calls := seen ++ [CallOriginal args] |}).
Proof.
  intros H0 Hst Hne. unfold decorated, requiresToken, Promise.catch,
    probed_original, probed. cbn. rewrite H0, Hst.
  by rewrite bool_decide_eq_false_2.
Qed.

(** After a 401 and a refresh that resolves, the outcome is that of the
    replay, whatever it is. *)
Lemma decorated_replay (args : Args) (w0 w1 w2 w3 : W) (error : Reason)
    (o : Outcome Val) (seen : list (Call Args)) :
  original args w0 = (Rejected error, w1) →
  reason_status error = Some (Some 401%Z) →
  fetchNewToken w1 = (Fulfilled tt, w2) →
  original args w2 = (o, w3) →
  decorated original fetchNewToken args {| inner := w0; calls := seen |}
  = (o, {| inner := w3;
           calls := seen ++ [CallOriginal args; CallRefresh; CallOriginal args] |}).
Proof.
  intros H0 Hst Hrefresh H1.
  unfold decorated, requiresToken, Promise.catch, Promise.then_,
    probed_original, probed_refresh, probed. cbn.
  rewrite H0, Hst, bool_decide_eq_true_2 by done. cbn.
  rewrite Hrefresh. cbn. rewrite H1.
  rewrite <-!app_assoc. by destruct o.
Qed.

(** C2: when the wrapped operation rejects with a status-401 reason on
    its first invocation, the refresh resolves, and the wrapped
    operation resolves on its second invocation, the middleware
    resolves with the second invocation's result; the calls made are,
    in order, the wrapped operation with the caller's arguments, the
    refresh (once), and the wrapped operation with the same arguments
    (once more). *)
Theorem requiresToken_refresh_then_success
    (args : Args) (w0 w1 w2 w3 : W) (error : Reason) (v : Val) :
  original args w0 = (Rejected error, w1) →
  reason_status error = Some (Some 401%Z) →
  fetchNewToken w1 = (Fulfilled tt, w2) →
  original args w2 = (Fulfilled v, w3) →
  decorated original fetchNewToken args {| inner := w0; calls := [] |}
  = (Fulfilled v,
     {| inner := w3; calls := [CallOriginal args; CallRefresh; CallOriginal args] |}).
Proof.
  intros H0 Hst Hrefresh H1.
  by rewrite (decorated_replay args w0 w1 w2 w3 error (Fulfilled v) []).
Qed.

(** C3: when the wrapped operation rejects with a status-401 reason
    both on its first invocation and on its replay after the refresh,
    the middleware rejects with the second failure's reason, unchanged;
    the refresh is called exactly once and the wrapped operation
    exactly twice: there is no second refresh-and-replay cycle. *)
Theorem requiresToken_refresh_then_failure
    (args : Args) (w0 w1 w2 w3 : W) (error error' : Reason) :
  original args w0 = (Rejected error, w1) →
  reason_status error = Some (Some 401%Z) →
  fetchNewToken w1 = (Fulfilled tt, w2) →
  original args w2 = (Rejected error', w3) →
  reason_status error' = Some (Some 401%Z) →
  decorated original fetchNewToken args {| inner := w0; calls := [] |}
  = (Rejected error',
     {| inner := w3; calls := [CallOriginal args; CallRefresh; CallOriginal args] |}).
Proof.
  intros H0 Hst Hrefresh H1 _.
  by rewrite (decorated_replay args w0 w1 w2 w3 error (Rejected error') []).
Qed.
End Facts.

Lemma requiresToken_refresh_then_success_witness :
  decorated Scenario.fetchStreamKey Scenario.fetchNewToken "chan"%string
    {| inner := false; calls := [] |}
  = (Fulfilled "chan:live_key"%string,
     {| inner := true;
        calls := [CallOriginal "chan"%string; CallRefresh; CallOriginal "chan"%string] |}).
Proof.
  apply (requiresToken_refresh_then_success
           Scenario.fetchStreamKey Scenario.fetchNewToken "chan"%string
           false false true true (RObject (Some 401%Z) "token expired"));
    reflexivity.
Defined.

Lemma requiresToken_refresh_then_failure_witness :
  decorated Scenario.fetchRevoked Scenario.fetchNewToken "chan"%string
    {| inner := false; calls := [] |}
  = (Rejected (RObject (Some 401%Z) "revoked"),
     {| inner := true;
        calls := [CallOriginal "chan"%string; CallRefresh; CallOriginal "chan"%string] |}).
Proof.
  apply (requiresToken_refresh_then_failure
           Scenario.fetchRevoked Scenario.fetchNewToken "chan"%string
           false false true true (RObject (Some 401%Z) "token expired"));
    reflexivity.
Defined.

(** A rejection without a [status] of 401 is handed on as it is, and
    the refresh is not called. *)
Example requiresToken_403_passes_through :
  decorated (λ (_ : string) (w : bool), (Rejected (RObject (Some 403%Z) "forbidden"), w))
    Scenario.fetchNewToken "chan"%string {| inner := false; calls := [] |}
  = (@Rejected string (RObject (Some 403%Z) "forbidden"),
     {| inner := false; calls := [CallOriginal "chan"%string] |}).
Proof. reflexivity. Qed.
End MiddlewareFacts.

(** ** The asset acquisition service: [addPlatformAppAsset] *)

Module OrchestratorFacts.
Import Orchestrator.

Section Facts.
Context {rt : Runtime}.
Variable platform_getApp : string → option ILoadedApp.
Variable platform_getAssetUrl : string → string → string.
Variable userData : string.
Variable path_join : list string → string.
Variable path_basename : string → string.
Variable can_mkdir : string → bool.
Variable downloadFile : string → string → Async World unit.
Variable getChecksum : string → Async World string.

Local Abbreviation run :=
  (addPlatformAppAsset (rt := rt) platform_getApp platform_getAssetUrl userData path_join
     path_basename can_mkdir downloadFile getChecksum).
Local Abbreviation gather :=
  (acquire platform_getApp platform_getAssetUrl userData path_join
     path_basename can_mkdir downloadFile getChecksum).
Local Abbreviation targetDirectory :=
  (getAssetsTargetDirectory platform_getApp userData path_join can_mkdir).

(** An invocation is its world steps followed, when they all succeed,
    by one [ADD_ASSET]. *)
Lemma addPlatformAppAsset_acquire (appId assetUrl : string) (force : bool)
    (s : Service rt) :
  run appId assetUrl force s =
  match gather appId assetUrl (io s) with
  | (Fulfilled (filePath, checksum), w) =>
      match Assets.ADD_ASSET appId assetUrl checksum (state s) with
      | inr state' =>
          (Fulfilled filePath,
           {| io := w; state := state';
              commits := commits s ++ [mkCommit appId assetUrl checksum] |})
      | inl thrown =>
          (Rejected thrown, {| io := w; state := state s; commits := commits s |})
      end
  | (Rejected r, w) =>
      (Rejected r, {| io := w; state := state s; commits := commits s |})
  | (Pending, w) =>
      (Pending, {| io := w; state := state s; commits := commits s |})
  end.
Proof.
  unfold addPlatformAppAsset, acquire, Promise.then_, on_io, commit_ADD_ASSET,
    Promise.effect, Promise.resolve.
  destruct (targetDirectory appId (io s)) as [[assetsDir|r|] w1]; cbn; try done.
  destruct (downloadFile _ _ w1) as [[[]|r|] w2]; cbn; try done.
  destruct (getChecksum _ w2) as [[checksum|r|] w3]; cbn; try done.
  by destruct (Assets.ADD_ASSET appId assetUrl checksum (state s)).
Qed.

(** The world steps of an invocation for a known application whose
    directory can be made: the download, then the checksum. *)
Lemma acquire_known_app (appId assetUrl : string) (app : ILoadedApp) (w : World) :
  platform_getApp appId = Some app →
  can_mkdir (path_join [userData; "Media"; "Apps"; app_id app]%string) = true →
  gather appId assetUrl w =
  let dir := path_join [userData; "Media"; "Apps"; app_id app]%string in
  let url := platform_getAssetUrl appId assetUrl in
  let filePath := path_join [dir; path_basename url] in
  match downloadFile url filePath (log (EMkdirp dir) w) with
  | (Fulfilled _, w2) =>
      match getChecksum filePath w2 with
      | (Fulfilled checksum, w3) => (Fulfilled (filePath, checksum), w3)
      | (Rejected r, w3) => (Rejected r, w3)
      | (Pending, w3) => (Pending, w3)
      end
  | (Rejected r, w2) => (Rejected r, w2)
  | (Pending, w2) => (Pending, w2)
  end.
Proof.
  intros Happ Hdir.
  unfold acquire, Promise.then_, getAssetsTargetDirectory, getApp, ensureAssets,
    Promise.then_, mkdirp, Promise.resolve.
  rewrite Happ, Hdir. cbn.
  by destruct (downloadFile _ _ _) as [[[]|r|] w2].
Qed.

(** C4: for an application identifier that [getApp] does not know, the
    invocation rejects with the invalid-application error and leaves
    everything as it was: no directory is created, nothing is fetched
    or written, the table is unchanged and no mutation is committed. *)
Theorem addPlatformAppAsset_unknown_app
    (appId assetUrl : string) (force : bool) (s : Service rt) :
  platform_getApp appId = None →
  run appId assetUrl force s
  = (Rejected (RError (String.append "Invalid app: " appId)), s).
Proof.
  intros Hnone. rewrite addPlatformAppAsset_acquire.
  unfold acquire, Promise.then_, getAssetsTargetDirectory, getApp.
  rewrite Hnone. cbn. by destruct s.
Qed.

(** C5: an invocation that does not succeed, whether its promise is
    rejected or never settles, and whatever made it fail (unknown
    application, directory, download or checksum), commits no
    [ADD_ASSET]: the table and the list of committed mutations are
    those from before the invocation. *)
Theorem addPlatformAppAsset_failure_no_record
    (appId assetUrl : string) (force : bool) (s s' : Service rt) (o : Outcome string) :
  run appId assetUrl force s = (o, s') →
  is_fulfilled o = false →
  state s' = state s ∧ commits s' = commits s.
Proof.
  rewrite addPlatformAppAsset_acquire.
  destruct (gather appId assetUrl (io s)) as [[[filePath checksum]|r|] w];
    [destruct (Assets.ADD_ASSET appId assetUrl checksum (state s))|..];
    intros [= <- <-]; cbn; done.
Qed.

(** C9: the download is invoked whatever the force flag and the table
    are.  From a given world the steps of an invocation that act on the
    world (directory, download, checksum) have one outcome and leave one
    world, the same for every force flag and every table, with or without
    an entry for the asset; for a known application whose directory can
    be made these steps are the download, from the resolved URL to the
    target path and on the world right after the directory step, followed
    when it resolves by the checksum of the target path.  Every
    invocation is these steps followed, when they succeeded, by the one
    record of the checksum in its own table. *)
Theorem addPlatformAppAsset_ignores_force_and_cache
    (appId assetUrl : string) (w : World) :
  let '(steps, w') := gather appId assetUrl w in
  (∀ app : ILoadedApp,
     platform_getApp appId = Some app →
     can_mkdir (path_join [userData; "Media"; "Apps"; app_id app]%string) = true →
     let dir := path_join [userData; "Media"; "Apps"; app_id app]%string in
     let url := platform_getAssetUrl appId assetUrl in
     let filePath := path_join [dir; path_basename url] in
     (steps, w') =
     match downloadFile url filePath (log (EMkdirp dir) w) with
     | (Fulfilled _, w2) =>
         match getChecksum filePath w2 with
         | (Fulfilled checksum, w3) => (Fulfilled (filePath, checksum), w3)
         | (Rejected r, w3) => (Rejected r, w3)
         | (Pending, w3) => (Pending, w3)
         end
     | (Rejected r, w2) => (Rejected r, w2)
     | (Pending, w2) => (Pending, w2)
     end)
  ∧ ∀ (force : bool) (st : Table rt) (seen : list Commit),
      run appId assetUrl force {| io := w; state := st; commits := seen |} =
      match steps with
      | Fulfilled (filePath, checksum) =>
          match Assets.ADD_ASSET appId assetUrl checksum st with
          | inr st' =>
              (Fulfilled filePath,
               {| io := w'; state := st';
                  commits := seen ++ [mkCommit appId assetUrl checksum] |})
          | inl thrown =>
              (Rejected thrown, {| io := w'; state := st; commits := seen |})
          end
      | Rejected r => (Rejected r, {| io := w'; state := st; commits := seen |})
      | Pending => (Pending, {| io := w'; state := st; commits := seen |})
      end.
Proof.
  destruct (gather appId assetUrl w) as [steps w'] eqn:Hsteps. split.
  - intros app Happ Hdir. rewrite <-Hsteps. by apply acquire_known_app.
  - intros force st seen. rewrite addPlatformAppAsset_acquire. cbn [io state commits].
    rewrite Hsteps. by destruct steps as [[filePath checksum]|r|].
Qed.
End Facts.

Lemma addPlatformAppAsset_unknown_app_witness :
  Scenario.addPlatformAppAsset "app-9" "ok.bin" true Scenario.service
  = (Rejected (RError "Invalid app: app-9"), Scenario.service).
Proof.
  apply (addPlatformAppAsset_unknown_app Scenario.getApp Scenario.getAssetUrl
           "/home/u/slobs" Scenario.join Scenario.basename (λ _, true)
           (Requests.downloadFile Scenario.demo_net (λ _, true))
           (Requests.getChecksum Scenario.md5_hex (λ _, true))
           "app-9" "ok.bin" true Scenario.service).
  reflexivity.
Defined.

Lemma addPlatformAppAsset_failure_no_record_witness :
  (Scenario.addPlatformAppAsset "app-1" "gone.bin" false Scenario.service).1 = Pending
  ∧ state (Scenario.addPlatformAppAsset "app-1" "gone.bin" false Scenario.service).2
    = state Scenario.service
  ∧ commits (Scenario.addPlatformAppAsset "app-1" "gone.bin" false Scenario.service).2
    = commits Scenario.service.
Proof.
  split; [reflexivity|].
  apply (addPlatformAppAsset_failure_no_record Scenario.getApp Scenario.getAssetUrl
           "/home/u/slobs" Scenario.join Scenario.basename (λ _, true)
           (Requests.downloadFile Scenario.demo_net (λ _, true))
           (Requests.getChecksum Scenario.md5_hex (λ _, true))
           "app-1" "gone.bin" false Scenario.service _ Pending);
    reflexivity.
Defined.

(** A successful acquisition, end to end. *)
Example addPlatformAppAsset_ok_bin :
  let r := Scenario.addPlatformAppAsset "app-1" "ok.bin" false Scenario.service in
  r.1 = Fulfilled "/home/u/slobs/Media/Apps/app-1/ok.bin"%string
  ∧ trace (io r.2)
    = [EMkdirp "/home/u/slobs/Media/Apps/app-1";
       EFetch "https://cdn.example/ok.bin";
       EChunk [Byte.x01; Byte.x02]; EChunk [Byte.x03]; EEnd;
       EWrite "/home/u/slobs/Media/Apps/app-1/ok.bin" [Byte.x01; Byte.x02; Byte.x03];
       EHash "/home/u/slobs/Media/Apps/app-1/ok.bin"]
  ∧ Assets.getAsset (state r.2) "app-1" "ok.bin"
    = inr (JString "5289df737df57326fcdd22597afb1fac")
  ∧ Assets.hasAsset (state r.2) "app-1" "ok.bin" = inr true
  ∧ commits r.2 = [mkCommit "app-1" "ok.bin" "5289df737df57326fcdd22597afb1fac"].
Proof. vm_compute. repeat split. Qed.

(** The same asset acquired twice: the second invocation, with the entry
    in the table and the file on disk, fetches and writes again. *)
Example addPlatformAppAsset_twice :
  let first := Scenario.addPlatformAppAsset "app-1" "ok.bin" false Scenario.service in
  let second := Scenario.addPlatformAppAsset "app-1" "ok.bin" false first.2 in
  second.1 = Fulfilled "/home/u/slobs/Media/Apps/app-1/ok.bin"%string
  ∧ trace (io second.2)
    = trace (io first.2)
      ++ [EMkdirp "/home/u/slobs/Media/Apps/app-1";
          EFetch "https://cdn.example/ok.bin";
          EChunk [Byte.x01; Byte.x02]; EChunk [Byte.x03]; EEnd;
          EWrite "/home/u/slobs/Media/Apps/app-1/ok.bin" [Byte.x01; Byte.x02; Byte.x03];
          EHash "/home/u/slobs/Media/Apps/app-1/ok.bin"]
  ∧ length (commits second.2) = 2.
Proof. vm_compute. repeat split. Qed.
End OrchestratorFacts.


(** ** [isUrl] *)

Module UrlFacts.
Import Url.

Lemma match_Lit (c : ascii) (pattern : list Atom) (x : string) :
  match_at_start (Lit c :: pattern) x = true
  ↔ ∃ x', x = String c x' ∧ match_at_start pattern x' = true.
Proof.
  destruct x as [|c' x']; simpl.
  - split; [discriminate | by intros (? & ? & _)].
  - rewrite andb_true_iff, Ascii.eqb_eq. split.
    + intros [-> Hrest]. by exists x'.
    + by intros (? & [= <- <-] & Hrest).
Qed.

Lemma match_Opt (c : ascii) (pattern : list Atom) (x : string) :
  match_at_start (Opt c :: pattern) x = true
  ↔ (∃ x', x = String c x' ∧ match_at_start pattern x' = true)
    ∨ match_at_start pattern x = true.
Proof.
  destruct x as [|c' x']; cbn [match_at_start].
  - split; [by right | by intros [(? & ? & _)|]].
  - rewrite orb_true_iff, andb_true_iff, Ascii.eqb_eq. split.
    + intros [[-> Hrest]|Hskip]; [left; by exists x' | by right].
    + intros [(? & [= <- <-] & Hrest)|Hskip]; [by left | by right].
Qed.

(** X1: [isUrl(x)] is true exactly when [x] begins with [http:] or with
    [https:], in lower case and from its first character on. *)
Theorem isUrl_iff_scheme (x : string) :
  isUrl x = true
  ↔ (∃ rest, x = "http:" +:+ rest) ∨ (∃ rest, x = "https:" +:+ rest).
Proof.
  unfold isUrl, https_pattern. split.
  - intros H.
    apply match_Lit in H as (x1 & -> & H). apply match_Lit in H as (x2 & -> & H).
    apply match_Lit in H as (x3 & -> & H). apply match_Lit in H as (x4 & -> & H).
    apply match_Opt in H as [(x5 & -> & H)|H];
      apply match_Lit in H as (rest & -> & _); [right | left]; by exists rest.
  - intros [[rest ->]|[rest ->]]; reflexivity.
Qed.

(** The scheme is matched as it is spelled, only at the start, and the
    colon is required. *)
Example isUrl_samples :
  isUrl "https://cdn.example/a.webm" = true
  ∧ isUrl "http:" = true
  ∧ isUrl "HTTP://cdn.example/a.webm" = false
  ∧ isUrl " http://cdn.example/a.webm" = false
  ∧ isUrl "httpss://cdn.example" = false
  ∧ isUrl "https" = false
  ∧ isUrl "media/a.webm" = false
  ∧ isUrl EmptyString = false.
Proof. repeat split. Qed.

End UrlFacts.

(** ** [authorizedHeaders] and [handleResponse] *)

Module HttpFacts.
Import Http.

Lemma Headers_values_snoc (headers : Headers) (name value key : string) :
  Headers_values (headers ++ [(name, value)]) key
  = Headers_values headers key
    ++ (if decide (lower name = lower key) then [value] else []).
Proof.
  unfold Headers_values.
  rewrite filter_app, fmap_app. f_equal.
  rewrite filter_cons, filter_nil. simpl. by case_decide.
Qed.

(** [append], by cases on the name and on the normalized value. *)
Lemma Headers_append_cases (headers : Headers) (name value : string) :
  Headers_append headers name value
  = if valid_name name && negb (has_forbidden (normalize value))
    then inr (headers ++ [(name, normalize value)])
    else inl (RError "TypeError").
Proof. reflexivity. Qed.

Lemma ends_visible_nonempty (s : string) : ends_visible s = true → s ≠ EmptyString.
Proof. by destruct s. Qed.

(** A string that ends in a visible character loses nothing at its end. *)
Lemma strip_trailing_ends_visible (s : string) :
  ends_visible s = true → strip_trailing s = s.
Proof.
  induction s as [|c rest IH]; [done|]. destruct rest as [|c' rest'].
  - cbn. intros Hc. apply negb_true_iff in Hc. by rewrite Hc.
  - intros Hrest. change (ends_visible (String c (String c' rest')))
      with (ends_visible (String c' rest')) in Hrest.
    change (strip_trailing (String c (String c' rest')))
      with (match strip_trailing (String c' rest') with
            | EmptyString =>
                if is_http_whitespace c then EmptyString else String c EmptyString
            | kept => String c kept
            end).
    by rewrite IH.
Qed.

Lemma ends_visible_app (prefix s : string) :
  ends_visible s = true → ends_visible (prefix +:+ s) = true.
Proof.
  intros Hs. induction prefix as [|c prefix IH]; [done|].
  change (String c prefix +:+ s) with (String c (prefix +:+ s)).
  by destruct (prefix +:+ s).
Qed.

Lemma has_forbidden_app (prefix s : string) :
  has_forbidden (prefix +:+ s) = has_forbidden prefix || has_forbidden s.
Proof.
  induction prefix as [|c prefix IH]; [done|].
  change (String c prefix +:+ s) with (String c (prefix +:+ s)).
  cbn [has_forbidden]. cbv zeta. rewrite IH. by rewrite !orb_assoc.
Qed.

(** A scheme word and a space in front of a plain token: normalization
    changes nothing and nothing is forbidden. *)
Lemma normalize_scheme_token (c : ascii) (scheme token : string) :
  is_http_whitespace c = false → has_forbidden (String c scheme) = false →
  plain_token token = true →
  normalize (String c scheme +:+ token) = String c scheme +:+ token
  ∧ has_forbidden (normalize (String c scheme +:+ token)) = false.
Proof.
  intros Hc Hscheme Htoken. apply andb_true_iff in Htoken as [Hends Hclean].
  apply negb_true_iff in Hclean.
  assert (normalize (String c scheme +:+ token) = String c scheme +:+ token) as ->.
  { unfold normalize.
    change (String c scheme +:+ token) with (String c (scheme +:+ token)).
    cbn [strip_leading]. rewrite Hc.
    change (String c (scheme +:+ token)) with (String c scheme +:+ token).
    apply strip_trailing_ends_visible.
    by apply (ends_visible_app (String c scheme)). }
  split; [done|]. by rewrite has_forbidden_app, Hscheme, Hclean.
Qed.

(** X2: [authorizedHeaders] either throws a [TypeError], exactly when the
    token has a NUL, line feed or carriage return left after the
    whitespace at its end is dropped, or gives the collection with one
    more [Authorization] value: the normalized [Bearer <token>], put
    after the values the collection already holds under that name in any
    spelling, which are kept, not replaced; every other header keeps its
    values.  For a token that is not empty, ends in a visible character
    and has no forbidden character the value is [Bearer ] followed by the
    token as it is. *)
Theorem authorizedHeaders_appends (token : string) (headers : Headers) :
  match authorizedHeaders token (Some headers) with
  | inr headers' =>
      has_forbidden (normalize ("Bearer " +:+ token)) = false
      ∧ ∀ key : string,
          Headers_values headers' key
          = Headers_values headers key
            ++ (if decide (lower key = "authorization")
                then [normalize ("Bearer " +:+ token)] else [])
  | inl thrown =>
      has_forbidden (normalize ("Bearer " +:+ token)) = true
      ∧ thrown = RError "TypeError"
  end
  ∧ (plain_token token = true →
     authorizedHeaders token (Some headers)
     = inr (headers ++ [("Authorization"%string, "Bearer " +:+ token)])).
Proof.
  unfold authorizedHeaders. cbn [default]. rewrite Headers_append_cases.
  change (valid_name "Authorization") with true. cbn [andb].
  split.
  - destruct (has_forbidden (normalize ("Bearer " +:+ token))); cbn [negb]; [done|].
    split; [done|]. intros key. rewrite Headers_values_snoc.
    change (lower "Authorization") with "authorization"%string.
    f_equal. by repeat case_decide.
  - intros Hplain.
    destruct (normalize_scheme_token "B" "earer " token) as [-> ->]; done.
Qed.

(** The values for an empty token, a token with a space at its end, and a
    token with a line feed inside. *)
Example authorizedHeaders_samples :
  authorizedHeaders EmptyString None = inr [("Authorization"%string, "Bearer"%string)]
  ∧ authorizedHeaders "abc " None = inr [("Authorization"%string, "Bearer abc"%string)]
  ∧ authorizedHeaders (String "a" (String "010" "b")) None = inl (RError "TypeError").
Proof. repeat split. Qed.

(** What a rejection of [handleResponse] lets [error.status] read: the
    [status] member of the body when it is a number, not the status of
    the response. *)
Lemma as_reason_status_401 (v : Value) (text : string) :
  reason_status (as_reason v text) = Some (Some 401%Z)
  ↔ ∃ fields, v = VObj fields ∧ fields !! "status"%string = Some (VNum 401).
Proof.
  destruct v as [| | | | | |fields]; simpl; try (split; [discriminate | by intros (? & ? & _)]).
  split.
  - intros [= H]. exists fields. split; [done|].
    destruct (fields !! "status"%string) as [[]|]; naive_solver.
  - intros (? & [= <-] & ->). done.
Qed.

Section HandleResponse.
Context {W : Type}.
Variable JSON_parse : string → option Value.

Lemma handleResponse_cases (resp : ApiResponse) (w : W) :
  handleResponse JSON_parse resp w =
  match JSON_parse (api_text resp) with
  | None => (Rejected (RError "SyntaxError"), w)
  | Some v =>
      if api_ok resp then (Fulfilled v, w)
      else (Rejected (as_reason v (api_text resp)), w)
  end.
Proof.
  unfold handleResponse, json, Promise.then_.
  by destruct (api_ok resp), (JSON_parse (api_text resp)).
Qed.

(** X3: [handleResponse] settles with the world left alone: it resolves,
    with the parsed body, exactly when the status is in 200-299 and the
    body parses; a body that does not parse is a rejection with the
    [SyntaxError], whatever the status; and a response with a failure
    status whose body parses is a rejection with that parsed body. *)
Theorem handleResponse_resolves_iff (resp : ApiResponse) (w : W) :
  (∀ v w', handleResponse JSON_parse resp w = (Fulfilled v, w')
           ↔ api_ok resp = true ∧ JSON_parse (api_text resp) = Some v ∧ w' = w)
  ∧ (JSON_parse (api_text resp) = None →
     handleResponse JSON_parse resp w = (Rejected (RError "SyntaxError"), w))
  ∧ (∀ v, api_ok resp = false → JSON_parse (api_text resp) = Some v →
          handleResponse JSON_parse resp w
          = (Rejected (as_reason v (api_text resp)), w)).
Proof.
  rewrite handleResponse_cases.
  destruct (JSON_parse (api_text resp)) as [v0|], (api_ok resp);
    (split; [|split; [intros ?|intros v ? ?]; by simplify_eq]); intros v w';
    (split; [intros ? | intros (? & ? & ?)]); by simplify_eq.
Qed.
End HandleResponse.

End HttpFacts.

(** ** More on [requiresToken] *)

Module MiddlewareMore.
Import Middleware.

Section Facts.
Context {W Args Val : Type}.
Variable original : Args → Async W Val.
Variable fetchNewToken : Async W unit.

Lemma decorated_pending (args : Args) (w0 w1 : W) (seen : list (Call Args)) :
  original args w0 = (Pending, w1) →
  decorated original fetchNewToken args {| inner := w0; calls := seen |}
  = (Pending, {| inner := w1; calls := seen ++ [CallOriginal args] |}).
Proof.
  intros H0. unfold decorated, requiresToken, Promise.catch, probed_original, probed.
  cbn. by rewrite H0.
Qed.

Lemma decorated_unreadable (args : Args) (w0 w1 : W) (error : Reason)
    (seen : list (Call Args)) :
  original args w0 = (Rejected error, w1) →
  reason_status error = None →
  decorated original fetchNewToken args {| inner := w0; calls := seen |}
  = (Rejected (RError "TypeError"),
     {| inner := w1; calls := seen ++ [CallOriginal args] |}).
Proof.
  intros H0 Hst. unfold decorated, requiresToken, Promise.catch, probed_original, probed.
  cbn. by rewrite H0, Hst.
Qed.

(** After a 401 the refresh runs; the wrapped method is replayed only
    when the refresh resolves. *)
Lemma decorated_401 (args : Args) (w0 w1 : W) (error : Reason)
    (seen : list (Call Args)) :
  original args w0 = (Rejected error, w1) →
  reason_status error = Some (Some 401%Z) →
  decorated original fetchNewToken args {| inner := w0; calls := seen |}
  = match fetchNewToken w1 with
    | (Fulfilled _, w2) =>
        ((original args w2).1,
         {| inner := (original args w2).2;
            calls := seen ++ [CallOriginal args; CallRefresh; CallOriginal args] |})
    | (Rejected r, w2) =>
        (Rejected r, {| inner := w2; calls := seen ++ [CallOriginal args; CallRefresh] |})
    | (Pending, w2) =>
        (Pending, {| inner := w2; calls := seen ++ [CallOriginal args; CallRefresh] |})
    end.
Proof.
  intros H0 Hst.
  unfold decorated, requiresToken, Promise.catch, Promise.then_,
    probed_original, probed_refresh, probed. cbn.
  rewrite H0, Hst, bool_decide_eq_true_2 by done. cbn.
  destruct (fetchNewToken w1) as [[[]|r|] w2]; cbn; rewrite <-?app_assoc; try done.
  by destruct (original args w2) as [[v|r|] w3].
Qed.

(** X4: when the wrapped operation resolves, the middleware resolves with
    the same value and leaves the world as the operation left it; the
    operation is called once and the refresh is not called. *)
Theorem requiresToken_success_no_refresh (args : Args) (w0 w1 : W) (v : Val) :
  original args w0 = (Fulfilled v, w1) →
  decorated original fetchNewToken args {| inner := w0; calls := [] |}
  = (Fulfilled v, {| inner := w1; calls := [CallOriginal args] |}).
Proof.
  intros H0. by rewrite (MiddlewareFacts.decorated_success _ _ args w0 w1 v []).
Qed.

(** X5: a rejection whose reason has a [status] other than the number 401,
    or none at all, is handed on with the same reason; the operation is
    called once, and neither refreshed nor replayed. *)
Theorem requiresToken_other_failure_passes (args : Args) (w0 w1 : W)
    (error : Reason) (st : option Z) :
  original args w0 = (Rejected error, w1) →
  reason_status error = Some st → st ≠ Some 401%Z →
  decorated original fetchNewToken args {| inner := w0; calls := [] |}
  = (Rejected error, {| inner := w1; calls := [CallOriginal args] |}).
Proof.
  intros H0 Hst Hne.
  by rewrite (MiddlewareFacts.decorated_other_failure _ _ args w0 w1 error st []).
Qed.

(** X6: when the refresh itself rejects after a 401, the middleware
    rejects with the reason of the refresh, not with the 401, and the
    wrapped operation is not called again. *)
Theorem requiresToken_refresh_fails (args : Args) (w0 w1 w2 : W)
    (error failure : Reason) :
  original args w0 = (Rejected error, w1) →
  reason_status error = Some (Some 401%Z) →
  fetchNewToken w1 = (Rejected failure, w2) →
  decorated original fetchNewToken args {| inner := w0; calls := [] |}
  = (Rejected failure, {| inner := w2; calls := [CallOriginal args; CallRefresh] |}).
Proof.
  intros H0 Hst Hrefresh. rewrite (decorated_401 args w0 w1 error []) by done.
  by rewrite Hrefresh.
Qed.

(** X7: a rejection with [undefined] as its reason is not handed on: the
    handler fails reading [error.status], and the middleware rejects with
    that [TypeError]; there is no refresh. *)
Theorem requiresToken_undefined_reason (args : Args) (w0 w1 : W) :
  original args w0 = (Rejected RUndefined, w1) →
  decorated original fetchNewToken args {| inner := w0; calls := [] |}
  = (Rejected (RError "TypeError"), {| inner := w1; calls := [CallOriginal args] |}).
Proof.
  intros H0. by rewrite (decorated_unreadable args w0 w1 RUndefined []).
Qed.

(** X8: whatever the wrapped operation and the refresh do, one call of the
    decorated method makes one of three sequences of calls: the
    operation; the operation and the refresh; the operation, the refresh
    and the operation again.  The operation is always called with the
    caller's arguments, never more than twice, and the refresh never more
    than once. *)
Theorem requiresToken_call_bound (args : Args) (p : Probe W Args) :
  ∃ delta : list (Call Args),
    calls (decorated original fetchNewToken args p).2 = calls p ++ delta
    ∧ (delta = [CallOriginal args]
       ∨ delta = [CallOriginal args; CallRefresh]
       ∨ delta = [CallOriginal args; CallRefresh; CallOriginal args]).
Proof.
  destruct p as [w0 seen]. cbn [calls].
  destruct (original args w0) as [[v|error|] w1] eqn:H0.
  - rewrite (MiddlewareFacts.decorated_success _ _ args w0 w1 v seen) by done. eauto.
  - destruct (reason_status error) as [st|] eqn:Hst.
    + destruct (decide (st = Some 401%Z)) as [->|Hne].
      * rewrite (decorated_401 args w0 w1 error seen) by done.
        destruct (fetchNewToken w1) as [[[]|r|] w2]; cbn; eauto.
      * rewrite (MiddlewareFacts.decorated_other_failure _ _ args w0 w1 error st seen)
          by done. eauto.
    + rewrite (decorated_unreadable args w0 w1 error seen) by done. eauto.
  - rewrite (decorated_pending args w0 w1 seen) by done. eauto.
Qed.
End Facts.

Lemma requiresToken_success_no_refresh_witness :
  decorated Scenario.fetchStreamKey Scenario.fetchNewToken "chan"%string
    {| inner := true; calls := [] |}
  = (Fulfilled "chan:live_key"%string,
     {| inner := true; calls := [CallOriginal "chan"%string] |}).
Proof.
  apply (requiresToken_success_no_refresh Scenario.fetchStreamKey Scenario.fetchNewToken
           "chan"%string true true).
  reflexivity.
Defined.

Lemma requiresToken_other_failure_passes_witness :
  decorated ScenarioMore.forbidden Scenario.fetchNewToken "chan"%string
    {| inner := false; calls := [] |}
  = (Rejected (RObject (Some 403%Z) "forbidden"),
     {| inner := false; calls := [CallOriginal "chan"%string] |}).
Proof.
  apply (requiresToken_other_failure_passes ScenarioMore.forbidden Scenario.fetchNewToken
           "chan"%string false false _ (Some 403%Z));
    [reflexivity | reflexivity | discriminate].
Defined.

Lemma requiresToken_refresh_fails_witness :
  decorated Scenario.fetchStreamKey ScenarioMore.refreshDown "chan"%string
    {| inner := false; calls := [] |}
  = (Rejected (RObject (Some 503%Z) "refresh unavailable"),
     {| inner := false; calls := [CallOriginal "chan"%string; CallRefresh] |}).
Proof.
  apply (requiresToken_refresh_fails Scenario.fetchStreamKey ScenarioMore.refreshDown
           "chan"%string false false false (RObject (Some 401%Z) "token expired"));
    reflexivity.
Defined.

Lemma requiresToken_undefined_reason_witness :
  decorated ScenarioMore.rejectsWithUndefined Scenario.fetchNewToken "chan"%string
    {| inner := false; calls := [] |}
  = (Rejected (RError "TypeError"),
     {| inner := false; calls := [CallOriginal "chan"%string] |}).
Proof.
  apply (requiresToken_undefined_reason ScenarioMore.rejectsWithUndefined
           Scenario.fetchNewToken "chan"%string false false).
  reflexivity.
Defined.

End MiddlewareMore.

(** ** Token refresh for API calls *)

Module RefreshFacts.
Import Http.

Section Refresh.
Context {W Args : Type}.
Variable JSON_parse : string → option Value.
Variable send : Args → Async W ApiResponse.
Variable fetchNewToken : Async W unit.

(** X9: for an API call [fetch(request).then(handleResponse)] under
    [requiresToken] whose first request is answered, the refresh is called
    exactly when the response is a failure and its body parses to an
    object whose [status] member is the number 401.  The status of the
    response itself decides only between success and failure. *)
Theorem refresh_iff_body_status_401 (args : Args) (w w' : W) (resp : ApiResponse) :
  send args w = (Fulfilled resp, w') →
  Middleware.CallRefresh ∈
    Middleware.calls
      (Middleware.decorated (fetch_then_handleResponse JSON_parse send) fetchNewToken
         args {| Middleware.inner := w; Middleware.calls := [] |}).2
  ↔ api_ok resp = false
    ∧ ∃ fields, JSON_parse (api_text resp) = Some (VObj fields)
                ∧ fields !! "status"%string = Some (VNum 401).
Proof.
  intros Hsend.
  assert (Hfirst : fetch_then_handleResponse JSON_parse send args w
                   = handleResponse JSON_parse resp w').
  { unfold fetch_then_handleResponse, Promise.then_. by rewrite Hsend. }
  rewrite HttpFacts.handleResponse_cases in Hfirst.
  destruct (JSON_parse (api_text resp)) as [v|] eqn:Hparse.
  - destruct (api_ok resp) eqn:Hok.
    + rewrite (MiddlewareFacts.decorated_success _ _ args w w' v []) by done.
      cbn. rewrite list_elem_of_singleton. split; [done | by intros [? _]].
    + destruct (reason_status (as_reason v (api_text resp))) as [st|] eqn:Hst.
      * destruct (decide (st = Some 401%Z)) as [->|Hne].
        -- rewrite (MiddlewareMore.decorated_401 _ _ args w w' _ []) by done.
           apply HttpFacts.as_reason_status_401 in Hst as (fields & -> & Hfield).
           split; [intros _; split; [done | by exists fields]|]. intros _.
           destruct (fetchNewToken w') as [[[]|r|] w2]; cbn; set_solver.
        -- rewrite (MiddlewareFacts.decorated_other_failure _ _ args w w' _ st [])
             by done.
           cbn. rewrite list_elem_of_singleton. split; [done|].
           intros (_ & fields & [= ->] & Hfield). destruct Hne.
           simpl in Hst. rewrite Hfield in Hst. congruence.
      * rewrite (MiddlewareMore.decorated_unreadable _ _ args w w' _ []) by done.
        cbn. rewrite list_elem_of_singleton. split; [done|].
        by intros (_ & fields & [= ->] & _).
  - rewrite (MiddlewareFacts.decorated_other_failure _ _ args w w' _ None []) by done.
    cbn. rewrite list_elem_of_singleton. split; [done | by intros (_ & ? & ? & _)].
Qed.
End Refresh.

(** A failure with status 500 whose body says 401 is refreshed. *)
Lemma refresh_iff_body_status_401_witness :
  Middleware.CallRefresh ∈
    Middleware.calls
      (Middleware.decorated
         (fetch_then_handleResponse ScenarioMore.parse ScenarioMore.gateway)
         Scenario.fetchNewToken "chan"%string
         {| Middleware.inner := false; Middleware.calls := [] |}).2.
Proof.
  apply (refresh_iff_body_status_401 ScenarioMore.parse ScenarioMore.gateway
           Scenario.fetchNewToken "chan"%string false false
           {| api_status := 500; api_text := "body:invalid-token" |});
    [reflexivity|].
  split; [reflexivity|].
  exists {[ "status"%string := VNum 401; "message"%string := VStr "invalid oauth token" ]}.
  split; reflexivity.
Defined.

(** A failure with status 401 whose body has no [status] is not. *)
Example no_refresh_without_body_status :
  Middleware.decorated
    (fetch_then_handleResponse ScenarioMore.parse ScenarioMore.terse)
    Scenario.fetchNewToken "chan"%string
    {| Middleware.inner := false; Middleware.calls := [] |}
  = (Rejected (RObject None "body:unauthorized"),
     {| Middleware.inner := false;
        Middleware.calls := [Middleware.CallOriginal "chan"%string] |}).
Proof. reflexivity. Qed.

End RefreshFacts.

(** ** The Twitch platform service *)

Module TwitchFacts.
Import Http Twitch.

(** The three headers of every request. *)
Definition base_headers : Headers :=
  [("Client-Id", clientId);
   ("Accept", "application/vnd.twitchtv.v5+json");
   ("Content-Type", "application/json")]%string.

(** The value of the [Authorization] header before normalization. *)
Definition authorization (oauthToken : string) (isNewApi : bool) : string :=
  (if isNewApi then "Bearer" else "OAuth") +:+ " " +:+ oauthToken.

Lemma getHeaders_cases (oauthToken : string) (authorized isNewApi : bool) :
  getHeaders oauthToken authorized isNewApi
  = if authorized
    then Headers_append base_headers "Authorization" (authorization oauthToken isNewApi)
    else inr base_headers.
Proof. by destruct authorized, isNewApi. Qed.

Lemma getHeaders_values (oauthToken : string) (isNewApi : bool) (headers : Headers) :
  getHeaders oauthToken true isNewApi = inr headers →
  Headers_values headers "Authorization"
  = [normalize (authorization oauthToken isNewApi)].
Proof.
  rewrite getHeaders_cases, HttpFacts.Headers_append_cases.
  destruct (valid_name "Authorization" && _); [|done].
  intros Hheaders. apply (inj inr) in Hheaders. subst headers.
  by rewrite HttpFacts.Headers_values_snoc.
Qed.

Lemma authorizedHeaders_values (token : string) (headers : Headers) :
  authorizedHeaders token None = inr headers →
  Headers_values headers "Authorization" = [normalize ("Bearer " +:+ token)].
Proof.
  unfold authorizedHeaders. rewrite HttpFacts.Headers_append_cases.
  destruct (valid_name "Authorization" && _); [|done].
  intros Hheaders. apply (inj inr) in Hheaders. subst headers.
  by rewrite HttpFacts.Headers_values_snoc.
Qed.

(** X10: [getHeaders] throws a [TypeError] only for an authorized request
    whose token has a NUL, line feed or carriage return left after
    normalization.  Otherwise the headers hold no [Authorization] value
    unless the request is authorized, and then exactly one: the
    normalized scheme and token, the scheme being [Bearer] for the new API
    and [OAuth] for the old one; the client id is sent either way.  For a
    token that is not empty, ends in a visible character and has no
    forbidden character the value is the scheme, a space and the token as
    it is. *)
Theorem getHeaders_authorization (oauthToken : string) (authorized isNewApi : bool) :
  match getHeaders oauthToken authorized isNewApi with
  | inr headers =>
      Headers_values headers "Authorization"
      = (if authorized then [normalize (authorization oauthToken isNewApi)] else [])
      ∧ Headers_get headers "Client-Id" = Some clientId
      ∧ (authorized = true →
         has_forbidden (normalize (authorization oauthToken isNewApi)) = false)
  | inl thrown =>
      authorized = true
      ∧ has_forbidden (normalize (authorization oauthToken isNewApi)) = true
      ∧ thrown = RError "TypeError"
  end
  ∧ (plain_token oauthToken = true →
     getHeaders oauthToken authorized isNewApi
     = inr (base_headers
            ++ if authorized
               then [("Authorization"%string, authorization oauthToken isNewApi)]
               else [])).
Proof.
  rewrite getHeaders_cases, HttpFacts.Headers_append_cases.
  change (valid_name "Authorization") with true. cbn [andb].
  split.
  - destruct authorized; [|done].
    destruct (has_forbidden (normalize (authorization oauthToken isNewApi)));
      cbn [negb]; [done|].
    by rewrite HttpFacts.Headers_values_snoc.
  - intros Hplain. destruct authorized; [|by rewrite app_nil_r].
    destruct isNewApi.
    + destruct (HttpFacts.normalize_scheme_token "B" "earer " oauthToken) as [Hsame Hclean];
        [done..|].
      change (authorization oauthToken true) with ("Bearer " +:+ oauthToken).
      by rewrite Hclean, Hsame.
    + destruct (HttpFacts.normalize_scheme_token "O" "Auth " oauthToken) as [Hsame Hclean];
        [done..|].
      change (authorization oauthToken false) with ("OAuth " +:+ oauthToken).
      by rewrite Hclean, Hsame.
Qed.

(** The value for an empty token is the bare scheme. *)
Example getHeaders_empty_token :
  match getHeaders EmptyString true false with
  | inr headers => Headers_values headers "Authorization" = ["OAuth"%string]
  | inl _ => False
  end.
Proof. reflexivity. Qed.

Section Service.
Context {W : Type}.
Variable oauthToken : W → string.
Variable apiToken : W → string.
Variable streamlabs : W → string.
Variable fetch : Request → Async W ApiResponse.
Variable updatePlatformToken : Value → Async W unit.
Variable JSON_parse : string → option Value.

Local Abbreviation channel := (channelRequest oauthToken).
Local Abbreviation refresh := (refreshRequest apiToken streamlabs).
Local Abbreviation original :=
  (fetchRawChannelInfo_original oauthToken fetch JSON_parse).
Local Abbreviation newToken :=
  (fetchNewToken apiToken streamlabs fetch updatePlatformToken JSON_parse).

Lemma original_answered (w w' : W) (request : Request) (resp : ApiResponse) :
  channel w = inr request →
  fetch request w = (Fulfilled resp, w') →
  original tt w = inr (handleResponse JSON_parse resp w').
Proof.
  intros Hrequest Hfetch. unfold fetchRawChannelInfo_original, Promise.then_.
  by rewrite Hrequest, Hfetch.
Qed.

(** [fetchNewToken] asks Streamlabs with the API token as bearer and
    hands the [access_token] of the answer to the user service. *)
Lemma fetchNewToken_answered (w w' : W) (request : Request) (resp : ApiResponse)
    (body access_token : Value) :
  refresh w = inr request →
  fetch request w = (Fulfilled resp, w') →
  api_ok resp = true → JSON_parse (api_text resp) = Some body →
  get_prop body "access_token" = Some access_token →
  newToken w = inr (updatePlatformToken access_token w').
Proof.
  intros Hrequest Hfetch Hok Hparse Htoken. unfold fetchNewToken, Promise.then_.
  rewrite Hrequest, Hfetch, HttpFacts.handleResponse_cases, Hparse, Hok.
  by rewrite Htoken.
Qed.

(** X11: when the channel request can be built and Twitch rejects it with
    a body of status 401, the refresh request can be built and succeeds,
    and the channel request can be built again, [fetchRawChannelInfo]
    sends it again with headers built from the token that is current
    after [updatePlatformToken] and resolves with the body of that second
    answer.  The [Authorization] value of the replayed request is the
    normalized [OAuth <new token>], that of the refresh request the
    normalized [Bearer <API token>]. *)
Theorem fetchRawChannelInfo_replays_with_new_token
    (w0 w1 w2 w3 w4 : W) (request1 request2 request3 : Request)
    (resp1 resp2 resp3 : ApiResponse)
    (fields : gmap string Value) (body access_token info : Value) :
  channel w0 = inr request1 →
  fetch request1 w0 = (Fulfilled resp1, w1) →
  api_ok resp1 = false →
  JSON_parse (api_text resp1) = Some (VObj fields) →
  fields !! "status"%string = Some (VNum 401) →
  refresh w1 = inr request2 →
  fetch request2 w1 = (Fulfilled resp2, w2) →
  api_ok resp2 = true → JSON_parse (api_text resp2) = Some body →
  get_prop body "access_token" = Some access_token →
  updatePlatformToken access_token w2 = (Fulfilled tt, w3) →
  channel w3 = inr request3 →
  fetch request3 w3 = (Fulfilled resp3, w4) →
  api_ok resp3 = true → JSON_parse (api_text resp3) = Some info →
  fetchRawChannelInfo oauthToken apiToken streamlabs fetch updatePlatformToken
    JSON_parse w0 = inr (Fulfilled info, w4)
  ∧ Headers_values (req_headers request3) "Authorization"
    = [normalize ("OAuth " +:+ oauthToken w3)]
  ∧ Headers_values (req_headers request2) "Authorization"
    = [normalize ("Bearer " +:+ apiToken w1)].
Proof.
  intros Hrequest1 Hfetch1 Hok1 Hparse1 Hstatus Hrequest2 Hfetch2 Hok2 Hparse2 Htoken
    Hupdate Hrequest3 Hfetch3 Hok3 Hparse3.
  split; [|split].
  - unfold fetchRawChannelInfo, Middleware.requiresToken, Promise.catch, in_handler.
    rewrite (original_answered w0 w1 request1 resp1), HttpFacts.handleResponse_cases,
      Hparse1, Hok1 by done.
    cbn. rewrite Hstatus, bool_decide_eq_true_2 by done.
    unfold Promise.then_.
    rewrite (fetchNewToken_answered w1 w2 request2 resp2 body access_token), Hupdate
      by done.
    rewrite (original_answered w3 w4 request3 resp3), HttpFacts.handleResponse_cases,
      Hparse3, Hok3 by done.
    reflexivity.
  - unfold channelRequest in Hrequest3.
    destruct (getHeaders (oauthToken w3) true false) as [|headers] eqn:Hheaders; [done|].
    injection Hrequest3 as <-. cbn [req_headers].
    by apply getHeaders_values in Hheaders.
  - unfold refreshRequest in Hrequest2.
    destruct (authorizedHeaders (apiToken w1) None) as [|headers] eqn:Hheaders; [done|].
    injection Hrequest2 as <-. cbn [req_headers].
    by apply authorizedHeaders_values in Hheaders.
Qed.
End Service.

Lemma fetchRawChannelInfo_replays_with_new_token_witness :
  ScenarioMore.fetchRawChannelInfo ScenarioMore.stale
  = inr (Fulfilled (VObj {[ "stream_key"%string := VStr "live_123";
                            "status"%string := VStr "Playing" ]}),
         {| ScenarioMore.platform_token := "fresh";
            ScenarioMore.api_token := "slobs-api";
            ScenarioMore.sent :=
              [ {| req_url := "https://api.twitch.tv/kraken/channel"; req_method := "GET";
                   req_headers :=
                     base_headers ++ [("Authorization"%string, "OAuth stale"%string)];
                   req_body := None |};
                {| req_url := "https://streamlabs.com/api/v5/slobs/twitch/refresh";
                   req_method := "GET";
                   req_headers := [("Authorization"%string, "Bearer slobs-api"%string)];
                   req_body := None |};
                {| req_url := "https://api.twitch.tv/kraken/channel"; req_method := "GET";
                   req_headers :=
                     base_headers ++ [("Authorization"%string, "OAuth fresh"%string)];
                   req_body := None |} ] |}).
Proof.
  eapply proj1.
  eapply (fetchRawChannelInfo_replays_with_new_token
            ScenarioMore.platform_token ScenarioMore.api_token
            (λ _, "streamlabs.com"%string)
            ScenarioMore.twitch_fetch ScenarioMore.updatePlatformToken ScenarioMore.parse
            ScenarioMore.stale); reflexivity.
Defined.

(** The stream key of the scenario, fetched with a stale token. *)
Example fetchStreamKey_after_refresh :
  match fetchStreamKey ScenarioMore.platform_token ScenarioMore.api_token
          (λ _, "streamlabs.com"%string) ScenarioMore.twitch_fetch
          ScenarioMore.updatePlatformToken ScenarioMore.parse ScenarioMore.stale with
  | inr (key, _) => key = Fulfilled (VStr "live_123")
  | inl _ => False
  end.
Proof. reflexivity. Qed.

(** A token with a line feed inside: the first call throws while it builds
    its headers, and nothing is fetched. *)
Example fetchRawChannelInfo_throws :
  ScenarioMore.fetchRawChannelInfo
    {| ScenarioMore.platform_token := String "a" (String "010" "b");
       ScenarioMore.api_token := "slobs-api"; ScenarioMore.sent := [] |}
  = inl (RError "TypeError").
Proof. reflexivity. Qed.

End TwitchFacts.

(** ** More on the asset cache store *)

Module AssetsMore.
Import Assets.

Section Facts.
Context {rt : Runtime}.
Implicit Types (st : Table rt) (appId assetName checksum : string).

(** Whether [Vue_set] writes depends on the key, not on what is stored:
    two of them on different keys can be swapped. *)
Lemma Vue_set_commute {V} (h : Heap rt) (holder : option string)
    (obj : gmap string V) (key key' : string) (value value' : V) :
  key ≠ key' →
  Vue_set h holder (Vue_set h holder obj key' value') key value
  = Vue_set h holder (Vue_set h holder obj key value) key' value'.
Proof.
  intros Hne. unfold Vue_set.
  destruct (unstored h holder key); [destruct (shadows h holder key)|];
    (destruct (unstored h holder key'); [destruct (shadows h holder key')|]);
    try done; by apply insert_insert_ne.
Qed.

Lemma Vue_set_dom {V} (h : Heap rt) (holder : option string)
    (obj : gmap string V) (key : string) (value : V) :
  dom obj ⊆ dom (Vue_set h holder obj key value).
Proof.
  unfold Vue_set.
  destruct (unstored h holder key); [destruct (shadows h holder key)|];
    rewrite ?dom_insert_L; set_solver.
Qed.

(** X12: records for two different [(appId, assetName)] pairs, under
    application ids that the state object answers with stored entries
    only, can be made in either order: neither throws, and the resulting
    table is the same. *)
Theorem ADD_ASSET_commute
    st appId assetName checksum (appId' assetName' checksum' : string) :
  (appId', assetName') ≠ (appId, assetName) →
  ordinary_app st appId → ordinary_app st appId' →
  ∃ st1 st2 st',
    ADD_ASSET appId' assetName' checksum' st = inr st1
    ∧ ADD_ASSET appId assetName checksum st1 = inr st'
    ∧ ADD_ASSET appId assetName checksum st = inr st2
    ∧ ADD_ASSET appId' assetName' checksum' st2 = inr st'.
Proof.
  intros Hne Happ Happ'. do 3 eexists.
  split; [by apply AssetsFacts.ADD_ASSET_ordinary_app|].
  split; [by apply AssetsFacts.ADD_ASSET_ordinary_app|].
  split; [by apply AssetsFacts.ADD_ASSET_ordinary_app|].
  rewrite AssetsFacts.ADD_ASSET_ordinary_app by done. cbn. f_equal.
  destruct (decide (appId' = appId)) as [->|Hother].
  - assert (assetName ≠ assetName') by congruence.
    rewrite !lookup_insert_eq, !insert_insert_eq. cbn.
    by rewrite Vue_set_commute.
  - rewrite !lookup_insert_ne by done. f_equal. by apply insert_insert_ne.
Qed.

(** X13: a record under an application id that the state object answers
    with stored entries only does not throw and only ever adds: the
    applications of the table afterwards are those from before together
    with [appId]; every asset that [appId] had stored is still stored;
    the assets stored for [appId] are those from before together with
    [assetName] when the submap answers [assetName] with stored entries
    only; and the objects around the table are as before. *)
Theorem ADD_ASSET_dom st appId assetName checksum :
  ordinary_app st appId →
  ∃ st', ADD_ASSET appId assetName checksum st = inr st'
         ∧ dom (stored st') = {[ appId ]} ∪ dom (stored st)
         ∧ dom (default ∅ (stored st !! appId)) ⊆ dom (default ∅ (stored st' !! appId))
         ∧ (ordinary_asset st appId assetName →
            dom (default ∅ (stored st' !! appId))
            = {[ assetName ]} ∪ dom (default ∅ (stored st !! appId)))
         ∧ heap st' = heap st.
Proof.
  intros Happ. eexists. split; [by apply AssetsFacts.ADD_ASSET_ordinary_app|].
  cbn. rewrite lookup_insert_eq, dom_insert_L. cbn.
  split; [done|]. split; [apply Vue_set_dom|]. split; [|done].
  intros Hasset. by rewrite AssetsFacts.Vue_set_ordinary, dom_insert_L.
Qed.

Lemma replay_snoc (delta : list Commit) (c : Commit) st :
  replay (delta ++ [c]) st
  = match replay delta st with
    | inr st' => ADD_ASSET (commit_appId c) (commit_assetName c) (commit_checksum c) st'
    | inl thrown => inl thrown
    end.
Proof. unfold replay. by rewrite foldl_app. Qed.

(** A sequence of records under ordinary application ids does not throw
    and leaves the objects around the table alone. *)
Lemma replay_ordinary (delta : list Commit) st :
  Forall (λ c, ordinary_app st (commit_appId c)) delta →
  ∃ st', replay delta st = inr st' ∧ heap st' = heap st.
Proof.
  induction delta as [|c delta IH] using rev_ind; [by eexists|].
  intros [Hdelta Hc]%Forall_app. apply Forall_inv in Hc.
  destruct (IH Hdelta) as (st' & Hreplay & Hheap).
  rewrite replay_snoc, Hreplay.
  rewrite AssetsFacts.ADD_ASSET_ordinary_app
    by (unfold ordinary_app; rewrite Hheap; exact Hc).
  eexists. split; [done|]. done.
Qed.

(** X14: a sequence of records, each under an application id that the
    state object answers with stored entries only, does not throw; and
    afterwards the lookup of a pair whose asset name its submap answers
    with stored entries only finds the checksum of the last record of the
    sequence made for that pair, and what the table held before when the
    sequence has none. *)
Theorem replay_last_record_wins (delta : list Commit) st appId assetName :
  Forall (λ c, ordinary_app st (commit_appId c)) delta →
  ordinary_asset st appId assetName →
  ∃ st', replay delta st = inr st'
         ∧ found_checksum (getAsset st' appId assetName)
           = match last_recorded delta appId assetName with
             | Some checksum => Some checksum
             | None => found_checksum (getAsset st appId assetName)
             end.
Proof.
  intros Hdelta Hasset.
  induction delta as [|c delta IH] using rev_ind; [by eexists|].
  apply Forall_app in Hdelta as [Hdelta Hc]. apply Forall_inv in Hc.
  destruct (IH Hdelta) as (st1 & Hreplay & Hfound).
  destruct (replay_ordinary delta st Hdelta) as (st1' & Hreplay' & Hheap).
  rewrite Hreplay in Hreplay'. injection Hreplay' as <-.
  assert (Happ1 : ordinary_app st1 (commit_appId c))
    by (unfold ordinary_app; rewrite Hheap; exact Hc).
  assert (Hasset1 : ordinary_asset st1 appId assetName)
    by (unfold ordinary_asset; rewrite Hheap; exact Hasset).
  rewrite replay_snoc, Hreplay.
  destruct (ADD_ASSET (commit_appId c) (commit_assetName c) (commit_checksum c) st1)
    as [thrown|st2] eqn:Hadd.
  { by rewrite AssetsFacts.ADD_ASSET_ordinary_app in Hadd. }
  exists st2. split; [done|].
  unfold last_recorded in *. rewrite filter_app, filter_cons, filter_nil.
  destruct c as [a n cs]; cbn [commit_appId commit_assetName commit_checksum] in *.
  case_decide as Hc'.
  - destruct Hc' as [-> ->]. rewrite last_snoc. cbn.
    by rewrite (AssetsFacts.getAsset_ADD_ASSET st1 st2 appId assetName cs).
  - rewrite app_nil_r.
    destruct (AssetsFacts.getAsset_ADD_ASSET_other st1 st2 a n cs appId assetName)
      as [-> _]; try done.
    + intros [= -> ->]. by apply Hc'.
    + by intros ->.
Qed.
End Facts.

Lemma ADD_ASSET_commute_witness :
  ∃ st1 st2 st',
    ADD_ASSET "app-1" "b.webm" "92eb5ffe" (PlainObjects.table defaultState) = inr st1
    ∧ ADD_ASSET "app-1" "a.webm" "0cc175b9" st1 = inr st'
    ∧ ADD_ASSET "app-1" "a.webm" "0cc175b9" (PlainObjects.table defaultState) = inr st2
    ∧ ADD_ASSET "app-1" "b.webm" "92eb5ffe" st2 = inr st'.
Proof.
  apply (ADD_ASSET_commute (PlainObjects.table defaultState) "app-1" "a.webm" "0cc175b9"
           "app-1" "b.webm" "92eb5ffe").
  - discriminate.
  - reflexivity.
  - reflexivity.
Defined.

Lemma ADD_ASSET_dom_witness :
  ∃ st', ADD_ASSET "app-1" "a.webm" "0cc175b9" (PlainObjects.table defaultState) = inr st'
         ∧ dom (stored st') = {[ "app-1"%string ]} ∪ dom (stored (PlainObjects.table defaultState))
         ∧ dom (default ∅ (stored (PlainObjects.table defaultState) !! "app-1"%string))
           ⊆ dom (default ∅ (stored st' !! "app-1"%string))
         ∧ (ordinary_asset (PlainObjects.table defaultState) "app-1" "a.webm" →
            dom (default ∅ (stored st' !! "app-1"%string))
            = {[ "a.webm"%string ]}
              ∪ dom (default ∅ (stored (PlainObjects.table defaultState) !! "app-1"%string)))
         ∧ heap st' = heap (PlainObjects.table defaultState).
Proof.
  apply (ADD_ASSET_dom (PlainObjects.table defaultState) "app-1" "a.webm" "0cc175b9").
  reflexivity.
Defined.

Lemma replay_last_record_wins_witness :
  ∃ st', replay [mkCommit "app-1" "a.webm" "0cc175b9";
                 mkCommit "app-2" "a.webm" "4a8a08f0";
                 mkCommit "app-1" "a.webm" "92eb5ffe"] (PlainObjects.table defaultState)
         = inr st'
         ∧ found_checksum (getAsset st' "app-1" "a.webm") = Some "92eb5ffe"%string.
Proof.
  apply (replay_last_record_wins
           [mkCommit "app-1" "a.webm" "0cc175b9";
            mkCommit "app-2" "a.webm" "4a8a08f0";
            mkCommit "app-1" "a.webm" "92eb5ffe"]
           (PlainObjects.table defaultState) "app-1" "a.webm").
  - repeat constructor.
  - reflexivity.
Defined.

(** Three records, two of them for the same asset. *)
Example replay_three :
  ∃ st, replay [mkCommit "app-1" "a.webm" "0cc175b9";
                mkCommit "app-2" "a.webm" "4a8a08f0";
                mkCommit "app-1" "a.webm" "92eb5ffe"] (PlainObjects.table defaultState)
        = inr st
        ∧ getAsset st "app-1" "a.webm" = inr (JString "92eb5ffe")
        ∧ getAsset st "app-2" "a.webm" = inr (JString "4a8a08f0")
        ∧ getAsset st "app-2" "b.webm" = inr JUndefined
        ∧ getAsset st "app-3" "a.webm" = inr JNull.
Proof. eexists. repeat split. Qed.

(** A record under the name of a function of [Object.prototype] throws,
    and the replay stops there. *)
Example replay_throws :
  replay [mkCommit "toString" "length" "0cc175b9";
          mkCommit "app-1" "a.webm" "92eb5ffe"] (PlainObjects.table defaultState)
  = inl (RError "TypeError").
Proof. reflexivity. Qed.

End AssetsMore.

(** ** More on [downloadFile] and [getChecksum] *)

Module DownloadMore.
Import Requests DownloadSpec.

Section Facts.
Variable net : string → FetchResult.
Variable writable : string → bool.
Variable md5_hex : bytes → string.
Variable readable : string → bool.

(** What a download that resolved has done. *)
Lemma downloadFile_fulfilled (srcUrl dstPath : string) (w w' : World) :
  downloadFile net writable srcUrl dstPath w = (Fulfilled tt, w') →
  ∃ resp : Response,
    net srcUrl = NetResponse resp ∧ ok resp = true
    ∧ w' = {| fs := <[dstPath := concat (chunks_of (body resp))]> (fs w);
              trace := trace w
                       ++ EFetch srcUrl :: map EChunk (chunks_of (body resp))
                       ++ [EEnd; EWrite dstPath (concat (chunks_of (body resp)))] |}.
Proof.
  destruct (net srcUrl) as [message| |resp] eqn:Hnet.
  - by rewrite (DownloadFacts.downloadFile_fetch_fails _ _ _ _ message).
  - by rewrite DownloadFacts.downloadFile_fetch_stalls.
  - destruct (ok resp) eqn:Hok;
      [|by rewrite (DownloadFacts.downloadFile_not_ok _ _ _ _ resp)].
    rewrite (DownloadFacts.downloadFile_ok _ _ _ _ resp) by done.
    unfold after_stream, log. cbn.
    destruct (ends_done (body resp)); [|done].
    destruct (writable dstPath); [|done]. cbn.
    intros [= <-]. exists resp. repeat split; try done.
    by rewrite <-!app_assoc.
Qed.

(** X15: [concatUint8Arrays(a, b)] never runs out of its buffer and gives
    the bytes of [a] followed by those of [b]; joining three arrays gives
    the same bytes whichever two are joined first. *)
Theorem concatUint8Arrays_joins (a b c : bytes) :
  concatUint8Arrays a b = Some (a ++ b)
  ∧ (ab ← concatUint8Arrays a b; concatUint8Arrays ab c)
    = (bc ← concatUint8Arrays b c; concatUint8Arrays a bc).
Proof.
  rewrite !DownloadFacts.concatUint8Arrays_app. simpl.
  rewrite !DownloadFacts.concatUint8Arrays_app. by rewrite app_assoc.
Qed.

(** X16: [downloadFile] never rejects.  Whatever the network, the body
    stream and the file system do (a failed fetch, an error status, a
    read that faults, a destination that cannot be written), its promise
    is either fulfilled or left pending. *)
Theorem downloadFile_fulfilled_or_pending (srcUrl dstPath : string) (w : World) :
  (downloadFile net writable srcUrl dstPath w).1 = Fulfilled tt
  ∨ (downloadFile net writable srcUrl dstPath w).1 = Pending.
Proof.
  destruct (net srcUrl) as [message| |resp] eqn:Hnet.
  - right. by rewrite (DownloadFacts.downloadFile_fetch_fails _ _ _ _ message).
  - right. by rewrite DownloadFacts.downloadFile_fetch_stalls.
  - destruct (ok resp) eqn:Hok.
    + rewrite (DownloadFacts.downloadFile_ok _ _ _ _ resp) by done.
      unfold after_stream. cbn.
      destruct (ends_done (body resp)), (writable dstPath); cbn; auto.
    + right. by rewrite (DownloadFacts.downloadFile_not_ok _ _ _ _ resp).
Qed.

(** X17: a download is all or nothing on the file system.  Unless its
    promise is fulfilled, every file is as it was before, also when some
    chunks had already been read; and in every case the files at paths
    other than the destination are untouched. *)
Theorem downloadFile_all_or_nothing (srcUrl dstPath : string) (w : World) :
  (is_fulfilled (downloadFile net writable srcUrl dstPath w).1 = false →
   fs (downloadFile net writable srcUrl dstPath w).2 = fs w)
  ∧ ∀ path : string,
      path ≠ dstPath →
      fs (downloadFile net writable srcUrl dstPath w).2 !! path = fs w !! path.
Proof.
  destruct (net srcUrl) as [message| |resp] eqn:Hnet.
  - by rewrite (DownloadFacts.downloadFile_fetch_fails _ _ _ _ message).
  - by rewrite DownloadFacts.downloadFile_fetch_stalls.
  - destruct (ok resp) eqn:Hok;
      [|by rewrite (DownloadFacts.downloadFile_not_ok _ _ _ _ resp)].
    rewrite (DownloadFacts.downloadFile_ok _ _ _ _ resp) by done.
    unfold after_stream. cbn.
    destruct (ends_done (body resp)), (writable dstPath); cbn; try done.
    split; [done|]. intros path Hne. by rewrite lookup_insert_ne.
Qed.

(** [getChecksum] resolves, with the digest of the file's content, when
    the file exists and can be read, and rejects otherwise; it never
    changes a file. *)
Lemma getChecksum_cases (filePath : string) (w : World) :
  (∀ digest w', getChecksum md5_hex readable filePath w = (Fulfilled digest, w')
                ↔ ∃ data, fs w !! filePath = Some data ∧ readable filePath = true
                          ∧ digest = md5_hex data ∧ w' = log (EHash filePath) w)
  ∧ fs (getChecksum md5_hex readable filePath w).2 = fs w.
Proof.
  unfold getChecksum.
  destruct (fs w !! filePath) as [data|] eqn:Hfile; [destruct (readable filePath)|];
    (split; [|done]); intros digest w'; split.
  - intros [= <- <-]. by exists data.
  - by intros (? & [= <-] & _ & -> & ->).
  - done.
  - by intros (? & _ & ? & _).
  - done.
  - by intros (? & ? & _).
Qed.

(** X18: the checksum taken after a download that resolved is the digest
    of the concatenation of the chunks the server sent, provided the file
    can be read back. *)
Theorem getChecksum_after_downloadFile (srcUrl dstPath : string) (w w' : World) :
  downloadFile net writable srcUrl dstPath w = (Fulfilled tt, w') →
  readable dstPath = true →
  ∃ resp : Response,
    net srcUrl = NetResponse resp
    ∧ getChecksum md5_hex readable dstPath w'
      = (Fulfilled (md5_hex (concat (chunks_of (body resp)))), log (EHash dstPath) w').
Proof.
  intros Hdownload Hreadable.
  apply downloadFile_fulfilled in Hdownload as (resp & Hnet & _ & ->).
  exists resp. split; [done|].
  unfold getChecksum. cbn [fs]. by rewrite lookup_insert_eq, Hreadable.
Qed.
End Facts.

Lemma getChecksum_after_downloadFile_witness :
  getChecksum Scenario.md5_hex (λ _, true) "/assets/ok.bin"
    (downloadFile Scenario.demo_net (λ _, true) "https://cdn.example/ok.bin"
       "/assets/ok.bin" Scenario.demo_world).2
  = (Fulfilled "5289df737df57326fcdd22597afb1fac"%string,
     log (EHash "/assets/ok.bin")
       (downloadFile Scenario.demo_net (λ _, true) "https://cdn.example/ok.bin"
          "/assets/ok.bin" Scenario.demo_world).2).
Proof.
  destruct (getChecksum_after_downloadFile Scenario.demo_net (λ _, true)
              Scenario.md5_hex (λ _, true)
              "https://cdn.example/ok.bin" "/assets/ok.bin" Scenario.demo_world
              (downloadFile Scenario.demo_net (λ _, true) "https://cdn.example/ok.bin"
                 "/assets/ok.bin" Scenario.demo_world).2)
    as (resp & Hnet & Hsum); [reflexivity | reflexivity |].
  injection Hnet as <-. exact Hsum.
Defined.

(** A body that faults after its first chunk: the chunk is read, nothing
    is written, and the promise stays pending. *)
Example downloadFile_fault_mid_stream :
  downloadFile
    (λ _, NetResponse {| status := 200;
                         body := SChunk [Byte.x01] (SError "connection reset") |})
    (λ _, true) "https://cdn.example/ok.bin" "/assets/gone.bin" Scenario.demo_world
  = (Pending,
     {| fs := fs Scenario.demo_world;
        trace := [EFetch "https://cdn.example/ok.bin"; EChunk [Byte.x01]] |}).
Proof. reflexivity. Qed.

End DownloadMore.

(** ** More on the asset acquisition service *)

Module OrchestratorMore.
Import Orchestrator DownloadSpec.

Section Facts.
Context {rt : Runtime}.
Variable platform_getApp : string → option ILoadedApp.
Variable platform_getAssetUrl : string → string → string.
Variable userData : string.
Variable path_join : list string → string.
Variable path_basename : string → string.
Variable can_mkdir : string → bool.

(** [<userData>/Media/Apps/<app.id>] *)
Local Abbreviation assetsDir app :=
  (path_join [userData; "Media"; "Apps"; app_id app]%string).
(** The destination of an asset of [app]. *)
Local Abbreviation target app appId assetUrl :=
  (path_join [assetsDir app; path_basename (platform_getAssetUrl appId assetUrl)]).

Section AnyRequests.
Variable downloadFile : string → string → Async World unit.
Variable getChecksum : string → Async World string.

Local Abbreviation run :=
  (addPlatformAppAsset (rt := rt) platform_getApp platform_getAssetUrl userData path_join
     path_basename can_mkdir downloadFile getChecksum).

(** An invocation that resolved went through every step. *)
Lemma addPlatformAppAsset_fulfilled_inv
    (appId assetUrl : string) (force : bool) (s s' : Service rt) (filePath : string) :
  run appId assetUrl force s = (Fulfilled filePath, s') →
  ∃ (app : ILoadedApp) (w2 w3 : World) (checksum : string) (st' : Table rt),
    platform_getApp appId = Some app
    ∧ can_mkdir (assetsDir app) = true
    ∧ downloadFile (platform_getAssetUrl appId assetUrl) (target app appId assetUrl)
        (log (EMkdirp (assetsDir app)) (io s)) = (Fulfilled tt, w2)
    ∧ getChecksum (target app appId assetUrl) w2 = (Fulfilled checksum, w3)
    ∧ Assets.ADD_ASSET appId assetUrl checksum (state s) = inr st'
    ∧ filePath = target app appId assetUrl
    ∧ s' = {| io := w3; state := st';
              commits := commits s ++ [mkCommit appId assetUrl checksum] |}.
Proof.
  rewrite OrchestratorFacts.addPlatformAppAsset_acquire.
  unfold acquire, Promise.then_ at 1, getAssetsTargetDirectory, getApp.
  destruct (platform_getApp appId) as [app|] eqn:Happ; [|done].
  unfold ensureAssets, Promise.then_ at 1, mkdirp.
  destruct (can_mkdir (assetsDir app)) eqn:Hdir; [|done]. cbn.
  unfold Promise.then_.
  destruct (downloadFile _ _ _) as [[[]|r|] w2] eqn:Hdownload; [|done..].
  destruct (getChecksum _ w2) as [[checksum|r|] w3] eqn:Hsum; [|done..].
  cbn. destruct (Assets.ADD_ASSET appId assetUrl checksum (state s))
    as [thrown|st'] eqn:Hadd; [done|].
  intros [= <- <-]. by exists app, w2, w3, checksum, st'.
Qed.

(** When the download resolved and the checksum then rejects, the
    invocation rejects with the reason of the checksum and records
    nothing. *)
Lemma addPlatformAppAsset_checksum_rejects
    (appId assetUrl : string) (force : bool) (app : ILoadedApp) (s : Service rt)
    (w2 w3 : World) (reason : Reason) :
  platform_getApp appId = Some app →
  can_mkdir (assetsDir app) = true →
  downloadFile (platform_getAssetUrl appId assetUrl) (target app appId assetUrl)
    (log (EMkdirp (assetsDir app)) (io s)) = (Fulfilled tt, w2) →
  getChecksum (target app appId assetUrl) w2 = (Rejected reason, w3) →
  run appId assetUrl force s
  = (Rejected reason, {| io := w3; state := state s; commits := commits s |}).
Proof.
  intros Happ Hdir Hdownload Hsum.
  rewrite OrchestratorFacts.addPlatformAppAsset_acquire.
  rewrite (OrchestratorFacts.acquire_known_app _ _ _ _ _ _ _ _ _ _ app) by done.
  cbn zeta. by rewrite Hdownload, Hsum.
Qed.

(** X19: when the directory of the application cannot be created, the
    invocation rejects with the error of [mkdirp]; nothing is downloaded,
    no checksum is taken, and the table is unchanged. *)
Theorem addPlatformAppAsset_mkdirp_fails
    (appId assetUrl : string) (force : bool) (app : ILoadedApp) (s : Service rt) :
  platform_getApp appId = Some app →
  can_mkdir (assetsDir app) = false →
  run appId assetUrl force s
  = (Rejected (RError (String.append "EACCES: " (assetsDir app))), s).
Proof.
  intros Happ Hdir. rewrite OrchestratorFacts.addPlatformAppAsset_acquire.
  unfold acquire, Promise.then_, getAssetsTargetDirectory, getApp, ensureAssets,
    Promise.then_, mkdirp.
  rewrite Happ, Hdir. by destruct s.
Qed.

(** X20: the steps of an invocation happen in order and each one sees the
    world the one before left: the directory named after [app.id] is
    created first, the download then runs from the resolved URL to the
    base name of that URL inside the directory, and the checksum is taken
    of that same path.  When all three succeed the checksum is recorded
    under the asset reference as the caller gave it, and the invocation
    resolves with the path; should the record throw, the invocation
    rejects with what was thrown and the table is as before. *)
Theorem addPlatformAppAsset_success
    (appId assetUrl : string) (force : bool) (app : ILoadedApp) (s : Service rt)
    (w2 w3 : World) (checksum : string) :
  platform_getApp appId = Some app →
  can_mkdir (assetsDir app) = true →
  downloadFile (platform_getAssetUrl appId assetUrl) (target app appId assetUrl)
    (log (EMkdirp (assetsDir app)) (io s)) = (Fulfilled tt, w2) →
  getChecksum (target app appId assetUrl) w2 = (Fulfilled checksum, w3) →
  run appId assetUrl force s
  = match Assets.ADD_ASSET appId assetUrl checksum (state s) with
    | inr st' =>
        (Fulfilled (target app appId assetUrl),
         {| io := w3; state := st';
            commits := commits s ++ [mkCommit appId assetUrl checksum] |})
    | inl thrown =>
        (Rejected thrown, {| io := w3; state := state s; commits := commits s |})
    end.
Proof.
  intros Happ Hdir Hdownload Hsum.
  rewrite OrchestratorFacts.addPlatformAppAsset_acquire.
  rewrite (OrchestratorFacts.acquire_known_app _ _ _ _ _ _ _ _ _ _ app) by done.
  cbn zeta. by rewrite Hdownload, Hsum.
Qed.
End AnyRequests.

Section Linked.
Variable net : string → FetchResult.
Variable writable : string → bool.
Variable md5_hex : bytes → string.
Variable readable : string → bool.

Local Abbreviation linked :=
  (addPlatformAppAsset_linked (rt := rt) platform_getApp platform_getAssetUrl userData path_join
     path_basename can_mkdir net writable md5_hex readable).

(** X21: with the request helpers of [util/requests], when the download
    resolved and the checksum then rejects, the file cannot be opened for
    reading and that is the reason the invocation rejects with; nothing
    is recorded, and the world is left as the download left it: the
    downloaded file stays at its path with the bytes the server sent, and
    no digest was taken. *)
Theorem addPlatformAppAsset_checksum_fails
    (appId assetUrl : string) (force : bool) (app : ILoadedApp) (s : Service rt)
    (w2 w3 : World) (reason : Reason) :
  platform_getApp appId = Some app →
  can_mkdir (assetsDir app) = true →
  Requests.downloadFile net writable (platform_getAssetUrl appId assetUrl)
    (target app appId assetUrl) (log (EMkdirp (assetsDir app)) (io s))
  = (Fulfilled tt, w2) →
  Requests.getChecksum md5_hex readable (target app appId assetUrl) w2
  = (Rejected reason, w3) →
  linked appId assetUrl force s
  = (Rejected reason, {| io := w3; state := state s; commits := commits s |})
  ∧ reason = RError (String.append "EACCES: " (target app appId assetUrl))
  ∧ readable (target app appId assetUrl) = false
  ∧ w3 = w2
  ∧ ∃ resp : Response,
      net (platform_getAssetUrl appId assetUrl) = NetResponse resp
      ∧ fs w3 = <[target app appId assetUrl := concat (chunks_of (body resp))]> (fs (io s))
      ∧ trace w3
        = trace (io s)
          ++ [EMkdirp (assetsDir app); EFetch (platform_getAssetUrl appId assetUrl)]
          ++ map EChunk (chunks_of (body resp))
          ++ [EEnd; EWrite (target app appId assetUrl) (concat (chunks_of (body resp)))].
Proof.
  intros Happ Hdir Hdownload Hsum.
  split.
  { unfold addPlatformAppAsset_linked.
    by apply (addPlatformAppAsset_checksum_rejects _ _ _ _ _ app _ w2). }
  apply DownloadMore.downloadFile_fulfilled in Hdownload as (resp & Hnet & _ & ->).
  unfold Requests.getChecksum in Hsum. cbn [fs] in Hsum.
  rewrite lookup_insert_eq in Hsum.
  destruct (readable (target app appId assetUrl)); [done|].
  injection Hsum as <- <-.
  repeat split. exists resp. cbn. repeat split; [done|].
  by rewrite <-app_assoc.
Qed.

(** X22: with the request helpers of [util/requests], an invocation that
    resolves has left the asset on disk at the path it returns, with as
    content the concatenation of the chunks the server sent for the
    resolved URL, and has recorded for the asset the digest of exactly
    that content; the lookup of the asset returns that digest when the
    state object answers the application id, and the submap the asset
    reference, with stored entries only. *)
Theorem addPlatformAppAsset_linked_postcondition
    (appId assetUrl : string) (force : bool) (s s' : Service rt) (filePath : string) :
  linked appId assetUrl force s = (Fulfilled filePath, s') →
  ∃ (app : ILoadedApp) (resp : Response),
    platform_getApp appId = Some app
    ∧ filePath = target app appId assetUrl
    ∧ net (platform_getAssetUrl appId assetUrl) = NetResponse resp
    ∧ fs (io s') !! filePath = Some (concat (chunks_of (body resp)))
    ∧ Assets.ADD_ASSET appId assetUrl (md5_hex (concat (chunks_of (body resp)))) (state s)
      = inr (state s')
    ∧ commits s'
      = commits s
        ++ [mkCommit appId assetUrl (md5_hex (concat (chunks_of (body resp))))]
    ∧ (Assets.ordinary_app (state s) appId →
       Assets.ordinary_asset (state s) appId assetUrl →
       Assets.getAsset (state s') appId assetUrl
       = inr (JString (md5_hex (concat (chunks_of (body resp))))))
    ∧ trace (io s')
      = trace (io s)
        ++ [EMkdirp (assetsDir app); EFetch (platform_getAssetUrl appId assetUrl)]
        ++ map EChunk (chunks_of (body resp))
        ++ [EEnd; EWrite filePath (concat (chunks_of (body resp))); EHash filePath].
Proof.
  unfold addPlatformAppAsset_linked. intros Hrun.
  apply addPlatformAppAsset_fulfilled_inv in Hrun
    as (app & w2 & w3 & checksum & st' & Happ & _ & Hdownload & Hsum & Hadd & -> & ->).
  apply DownloadMore.downloadFile_fulfilled in Hdownload as (resp & Hnet & _ & ->).
  unfold Requests.getChecksum in Hsum. cbn [fs] in Hsum.
  rewrite lookup_insert_eq in Hsum.
  destruct (readable (target app appId assetUrl)); [|done].
  injection Hsum as <- <-. exists app, resp. cbn.
  repeat split; try done.
  - by rewrite lookup_insert_eq.
  - intros Hordinary Hasset.
    by apply (AssetsFacts.getAsset_ADD_ASSET (state s) st' appId assetUrl).
  - rewrite <-!app_assoc. cbn. by rewrite <-!app_assoc.
Qed.

(** X23: with the request helpers of [util/requests], an answer with an
    error status leaves the invocation pending for ever: the directory has
    been created and the URL fetched, nothing is written, and nothing is
    recorded. *)
Theorem addPlatformAppAsset_linked_error_status
    (appId assetUrl : string) (force : bool) (app : ILoadedApp) (resp : Response)
    (s : Service rt) :
  platform_getApp appId = Some app →
  can_mkdir (assetsDir app) = true →
  net (platform_getAssetUrl appId assetUrl) = NetResponse resp →
  ok resp = false →
  linked appId assetUrl force s
  = (Pending,
     {| io := {| fs := fs (io s);
                 trace := trace (io s)
                          ++ [EMkdirp (assetsDir app);
                              EFetch (platform_getAssetUrl appId assetUrl)] |};
        state := state s; commits := commits s |}).
Proof.
  intros Happ Hdir Hnet Hok. unfold addPlatformAppAsset_linked.
  rewrite OrchestratorFacts.addPlatformAppAsset_acquire.
  unfold acquire, Promise.then_, getAssetsTargetDirectory, getApp, ensureAssets,
    Promise.then_, mkdirp.
  rewrite Happ, Hdir. cbn -[Requests.downloadFile].
  rewrite (DownloadFacts.downloadFile_not_ok _ _ _ _ resp) by done.
  unfold log. cbn. by rewrite <-app_assoc.
Qed.
End Linked.
End Facts.

Lemma addPlatformAppAsset_mkdirp_fails_witness :
  addPlatformAppAsset_linked Scenario.getApp Scenario.getAssetUrl "/home/u/slobs"
    Scenario.join Scenario.basename (λ _, false) Scenario.demo_net (λ _, true)
    Scenario.md5_hex (λ _, true) "app-1" "ok.bin" false Scenario.service
  = (Rejected (RError "EACCES: /home/u/slobs/Media/Apps/app-1"), Scenario.service).
Proof.
  apply (addPlatformAppAsset_mkdirp_fails Scenario.getApp Scenario.getAssetUrl
           "/home/u/slobs" Scenario.join Scenario.basename (λ _, false)
           (Requests.downloadFile Scenario.demo_net (λ _, true))
           (Requests.getChecksum Scenario.md5_hex (λ _, true))
           "app-1" "ok.bin" false {| app_id := "app-1" |} Scenario.service);
    reflexivity.
Defined.

Lemma addPlatformAppAsset_success_witness :
  (Scenario.addPlatformAppAsset "app-1" "ok.bin" false Scenario.service).1
  = Fulfilled "/home/u/slobs/Media/Apps/app-1/ok.bin"%string
  ∧ Assets.getAsset
      (state (Scenario.addPlatformAppAsset "app-1" "ok.bin" false Scenario.service).2)
      "app-1" "ok.bin"
    = inr (JString "5289df737df57326fcdd22597afb1fac").
Proof.
  unfold Scenario.addPlatformAppAsset, addPlatformAppAsset_linked.
  erewrite (addPlatformAppAsset_success Scenario.getApp Scenario.getAssetUrl
              "/home/u/slobs" Scenario.join Scenario.basename (λ _, true)
              (Requests.downloadFile Scenario.demo_net (λ _, true))
              (Requests.getChecksum Scenario.md5_hex (λ _, true))
              "app-1" "ok.bin" false {| app_id := "app-1" |} Scenario.service);
    [| reflexivity..].
  split; reflexivity.
Defined.

Lemma addPlatformAppAsset_checksum_fails_witness :
  addPlatformAppAsset_linked Scenario.getApp Scenario.getAssetUrl "/home/u/slobs"
    Scenario.join Scenario.basename (λ _, true) Scenario.demo_net (λ _, true)
    Scenario.md5_hex (λ _, false) "app-1" "ok.bin" false Scenario.service
  = (Rejected (RError "EACCES: /home/u/slobs/Media/Apps/app-1/ok.bin"),
     {| io := {| fs := <[ "/home/u/slobs/Media/Apps/app-1/ok.bin"%string
                          := [Byte.x01; Byte.x02; Byte.x03] ]> (fs Scenario.demo_world);
                 trace := [EMkdirp "/home/u/slobs/Media/Apps/app-1";
                           EFetch "https://cdn.example/ok.bin";
                           EChunk [Byte.x01; Byte.x02]; EChunk [Byte.x03]; EEnd;
                           EWrite "/home/u/slobs/Media/Apps/app-1/ok.bin"
                             [Byte.x01; Byte.x02; Byte.x03]] |};
        state := state Scenario.service; commits := [] |}).
Proof.
  eapply proj1.
  eapply (addPlatformAppAsset_checksum_fails Scenario.getApp Scenario.getAssetUrl
            "/home/u/slobs" Scenario.join Scenario.basename (λ _, true)
            Scenario.demo_net (λ _, true) Scenario.md5_hex (λ _, false)
            "app-1" "ok.bin" false {| app_id := "app-1" |} Scenario.service);
    reflexivity.
Defined.

Lemma addPlatformAppAsset_linked_postcondition_witness :
  fs (io (Scenario.addPlatformAppAsset "app-1" "ok.bin" false Scenario.service).2)
    !! "/home/u/slobs/Media/Apps/app-1/ok.bin"%string
  = Some [Byte.x01; Byte.x02; Byte.x03].
Proof.
  destruct (addPlatformAppAsset_linked_postcondition
              Scenario.getApp Scenario.getAssetUrl "/home/u/slobs" Scenario.join
              Scenario.basename (λ _, true) Scenario.demo_net (λ _, true)
              Scenario.md5_hex (λ _, true) "app-1" "ok.bin" false Scenario.service
              (Scenario.addPlatformAppAsset "app-1" "ok.bin" false Scenario.service).2
              "/home/u/slobs/Media/Apps/app-1/ok.bin")
    as (app & resp & _ & _ & Hnet & Hfile & _); [reflexivity|].
  injection Hnet as <-. exact Hfile.
Defined.

Lemma addPlatformAppAsset_linked_error_status_witness :
  Scenario.addPlatformAppAsset "app-1" "gone.bin" false Scenario.service
  = (Pending,
     {| io := {| fs := fs Scenario.demo_world;
                 trace := [EMkdirp "/home/u/slobs/Media/Apps/app-1";
                           EFetch "https://cdn.example/gone.bin"] |};
        state := state Scenario.service; commits := [] |}).
Proof.
  apply (addPlatformAppAsset_linked_error_status
           Scenario.getApp Scenario.getAssetUrl "/home/u/slobs" Scenario.join
           Scenario.basename (λ _, true) Scenario.demo_net (λ _, true)
           Scenario.md5_hex (λ _, true) "app-1" "gone.bin" false
           {| app_id := "app-1" |} {| status := 404; body := SDone |} Scenario.service);
    reflexivity.
Defined.

(** An asset reference that the submap answers by itself: the invocation
    resolves and the record is committed, but no entry is stored, and the
    lookup of the reference gives the prototype object, not the digest. *)
Example addPlatformAppAsset_inherited_reference :
  let r := addPlatformAppAsset_linked Scenario.getApp
             (λ _ _, "https://cdn.example/ok.bin"%string) "/home/u/slobs" Scenario.join
             Scenario.basename (λ _, true) Scenario.demo_net (λ _, true)
             Scenario.md5_hex (λ _, true) "app-1" "__proto__" false Scenario.service in
  r.1 = Fulfilled "/home/u/slobs/Media/Apps/app-1/ok.bin"%string
  ∧ commits r.2 = [mkCommit "app-1" "__proto__" "5289df737df57326fcdd22597afb1fac"]
  ∧ stored (state r.2) = stored (state Scenario.service)
  ∧ Assets.getAsset (state r.2) "app-1" "__proto__" = inr (JOther true).
Proof. repeat split. Qed.

End OrchestratorMore.

(** ** The developer settings page *)

Module DeveloperSettingsFacts.
Import DeveloperSettings.

Lemma nonempty_true (s : string) : s ≠ EmptyString → nonempty s = true.
Proof. intros Hne. unfold nonempty. by rewrite bool_decide_eq_false_2. Qed.

Lemma find_first {A} (f : A → bool) (before after : list A) (x : A) :
  Forall (λ y, f y = false) before → f x = true →
  List.find f (before ++ x :: after) = Some x.
Proof.
  intros Hbefore Hx. induction Hbefore as [|y before Hy _ IH]; simpl.
  - by rewrite Hx.
  - by rewrite Hy.
Qed.

Lemma find_no_match {A} (f : A → bool) (l : list A) :
  Forall (λ y, f y = false) l → List.find f l = None.
Proof.
  intros Hall. induction Hall as [|y l Hy _ IH]; simpl; [done | by rewrite Hy].
Qed.

Section Facts.
Context {S : Type}.
Variable platform_enabledApps : S → list EnabledApp.
Variable platform_unloadApps : S → S.
Variable platform_installUnpackedApp : string → string → string → Async S string.
Variable platform_reloadApp : string → Async S string.

Local Abbreviation current := (currentlyLoadedUnpackedApp platform_enabledApps).

(** The getter gives the first enabled app that is unpacked. *)
Lemma currentlyLoadedUnpackedApp_first (s : S) (before after : list EnabledApp)
    (app : EnabledApp) :
  platform_enabledApps s = before ++ app :: after →
  Forall (λ a, unpacked a = false) before → unpacked app = true →
  current s = Some app.
Proof.
  intros Happs Hbefore Happ. unfold currentlyLoadedUnpackedApp. rewrite Happs.
  case_decide as Hlen; [by destruct before | by apply find_first].
Qed.

Lemma currentlyLoadedUnpackedApp_none (s : S) :
  Forall (λ a, unpacked a = false) (platform_enabledApps s) →
  current s = None.
Proof.
  intros Hall. unfold currentlyLoadedUnpackedApp.
  case_decide; [done | by apply find_no_match].
Qed.

(** X24: [loadApp] does nothing at all while the path or the token of the
    form is empty: the service is not called, and the page keeps its
    loading flag and its error text. *)
Theorem loadApp_needs_path_and_token (p : Page S) :
  appPathValue (view p) = EmptyString ∨ appTokenValue (view p) = EmptyString →
  loadApp platform_enabledApps platform_unloadApps platform_installUnpackedApp p
  = (Fulfilled tt, p).
Proof.
  intros [Hpath|Htoken]; unfold loadApp, nonempty.
  - by rewrite Hpath.
  - rewrite Htoken. simpl. by destruct (negb _).
Qed.

(** X25: with a path and a token, [loadApp] first unloads every app when
    an unpacked app is loaded, then installs with the three values of the
    form.  When the installation resolves, its result becomes the error
    text; when it rejects, the error text is the fixed message; in both
    cases [loadApp] resolves with the loading flag off.  When the
    installation never settles, the loading flag stays on. *)
Theorem loadApp_outcome (p : Page S) (o : Outcome string) (s2 : S) :
  appPathValue (view p) ≠ EmptyString → appTokenValue (view p) ≠ EmptyString →
  platform_installUnpackedApp (appPathValue (view p)) (appCustomUrlValue (view p))
    (appTokenValue (view p))
    (match current (service p) with
     | Some _ => platform_unloadApps (service p)
     | None => service p
     end) = (o, s2) →
  loadApp platform_enabledApps platform_unloadApps platform_installUnpackedApp p
  = match o with
    | Fulfilled e =>
        (Fulfilled tt, {| service := s2; view := set_loading false (set_error e (view p)) |})
    | Rejected _ =>
        (Fulfilled tt,
         {| service := s2; view := set_loading false (set_error load_failed (view p)) |})
    | Pending => (Pending, {| service := s2; view := set_loading true (view p) |})
    end.
Proof.
  intros Hpath Htoken Hinstall. unfold loadApp.
  rewrite !nonempty_true by done. cbn [negb].
  unfold Promise.then_, Promise.catch, Promise.effect, Promise.resolve, update, on_service.
  destruct (current (service p)) as [app|]; cbn; rewrite Hinstall; by destruct o.
Qed.

(** X26: [reloadApp] with no unpacked app enabled fails inside its [try]
    block, reading the [id] of nothing: the page shows the fixed error
    message with the loading flag off, the promise resolves, and the
    service is not asked to reload anything. *)
Theorem reloadApp_without_unpacked_app (p : Page S) :
  Forall (λ a, unpacked a = false) (platform_enabledApps (service p)) →
  reloadApp platform_enabledApps platform_reloadApp p
  = (Fulfilled tt,
     {| service := service p;
        view := set_loading false (set_error load_failed (view p)) |}).
Proof.
  intros Hall. unfold reloadApp, Promise.then_, Promise.catch, Promise.effect, update.
  cbn. by rewrite currentlyLoadedUnpackedApp_none.
Qed.

(** X27: [reloadApp] reloads the first enabled app that is unpacked, by
    its id.  The error text is cleared before the call; a result of the
    reload replaces it, a rejection puts the fixed message there, and in
    both cases the loading flag ends off.  While the reload is not
    settled the flag is on and the error text empty. *)
Theorem reloadApp_outcome (p : Page S) (before after : list EnabledApp)
    (app : EnabledApp) (o : Outcome string) (s2 : S) :
  platform_enabledApps (service p) = before ++ app :: after →
  Forall (λ a, unpacked a = false) before → unpacked app = true →
  platform_reloadApp (enabled_id app) (service p) = (o, s2) →
  reloadApp platform_enabledApps platform_reloadApp p
  = match o with
    | Fulfilled e =>
        (Fulfilled tt, {| service := s2; view := set_loading false (set_error e (view p)) |})
    | Rejected _ =>
        (Fulfilled tt,
         {| service := s2; view := set_loading false (set_error load_failed (view p)) |})
    | Pending =>
        (Pending,
         {| service := s2; view := set_error EmptyString (set_loading true (view p)) |})
    end.
Proof.
  intros Happs Hbefore Happ Hreload.
  unfold reloadApp, Promise.then_, Promise.catch, Promise.effect, update, on_service.
  cbn. rewrite (currentlyLoadedUnpackedApp_first _ before after app) by done.
  rewrite Hreload. by destruct o.
Qed.
End Facts.

Lemma loadApp_needs_path_and_token_witness :
  ScenarioMore.loadApp
    {| service := [ScenarioMore.storeApp];
       view := ScenarioMore.form "/dev/my-app" EmptyString |}
  = (Fulfilled tt,
     {| service := [ScenarioMore.storeApp];
        view := ScenarioMore.form "/dev/my-app" EmptyString |}).
Proof.
  apply (loadApp_needs_path_and_token (λ apps, apps) (λ _, [])
           ScenarioMore.installUnpackedApp).
  right. reflexivity.
Defined.

Lemma loadApp_outcome_witness :
  ScenarioMore.loadApp
    {| service := [ScenarioMore.storeApp;
                   mkEnabledApp "old-dev-app" true "/dev/old" EmptyString "t0"];
       view := ScenarioMore.form "/dev/my-app" "t1" |}
  = (Fulfilled tt,
     {| service := [mkEnabledApp "dev-app" true "/dev/my-app" EmptyString "t1"];
        view := {| appPathValue := "/dev/my-app"; appCustomUrlValue := EmptyString;
                   appTokenValue := "t1"; loading := false; error := EmptyString |} |}).
Proof.
  apply (loadApp_outcome (λ apps, apps) (λ _, []) ScenarioMore.installUnpackedApp
           {| service := [ScenarioMore.storeApp;
                          mkEnabledApp "old-dev-app" true "/dev/old" EmptyString "t0"];
              view := ScenarioMore.form "/dev/my-app" "t1" |}
           (Fulfilled EmptyString)
           [mkEnabledApp "dev-app" true "/dev/my-app" EmptyString "t1"]);
    [discriminate | discriminate | reflexivity].
Defined.

(** An installation that rejects. *)
Example loadApp_install_rejects :
  ScenarioMore.loadApp
    {| service := []; view := ScenarioMore.form "/dev/no-manifest" "t1" |}
  = (Fulfilled tt,
     {| service := [];
        view := {| appPathValue := "/dev/no-manifest"; appCustomUrlValue := EmptyString;
                   appTokenValue := "t1"; loading := false; error := load_failed |} |}).
Proof. reflexivity. Qed.

Lemma reloadApp_without_unpacked_app_witness :
  ScenarioMore.reloadPage
    {| service := [ScenarioMore.storeApp];
       view := ScenarioMore.form "/dev/my-app" "t1" |}
  = (Fulfilled tt,
     {| service := [ScenarioMore.storeApp];
        view := {| appPathValue := "/dev/my-app"; appCustomUrlValue := EmptyString;
                   appTokenValue := "t1"; loading := false; error := load_failed |} |}).
Proof.
  apply (reloadApp_without_unpacked_app (λ apps, apps) ScenarioMore.reloadApp
           {| service := [ScenarioMore.storeApp];
              view := ScenarioMore.form "/dev/my-app" "t1" |}).
  repeat constructor.
Defined.

Lemma reloadApp_outcome_witness :
  ScenarioMore.reloadPage
    {| service := [ScenarioMore.storeApp;
                   mkEnabledApp "dev-app" true "/dev/my-app" EmptyString "t1"];
       view := ScenarioMore.form "/dev/my-app" "t1" |}
  = (Fulfilled tt,
     {| service := [ScenarioMore.storeApp;
                    mkEnabledApp "dev-app" true "/dev/my-app" EmptyString "t1"];
        view := {| appPathValue := "/dev/my-app"; appCustomUrlValue := EmptyString;
                   appTokenValue := "t1"; loading := false; error := EmptyString |} |}).
Proof.
  apply (reloadApp_outcome (λ apps, apps) ScenarioMore.reloadApp
           {| service := [ScenarioMore.storeApp;
                          mkEnabledApp "dev-app" true "/dev/my-app" EmptyString "t1"];
              view := ScenarioMore.form "/dev/my-app" "t1" |}
           [ScenarioMore.storeApp] []
           (mkEnabledApp "dev-app" true "/dev/my-app" EmptyString "t1")
           (Fulfilled EmptyString)
           [ScenarioMore.storeApp;
            mkEnabledApp "dev-app" true "/dev/my-app" EmptyString "t1"]);
    [reflexivity | repeat constructor | reflexivity | reflexivity].
Defined.

End DeveloperSettingsFacts.
